(** * MazeAgent (maze_agent.py): the Pitsweeper agent, its sensor encoder
      and its frontier-scoring policy.

    The agent keeps three sets of maze locations (known pits, known safe
    tiles, possible pits) and a propositional knowledge base that it talks to
    through [tell], [ask] and [simplify_self].  This file embeds
    [MazeAgent.__init__], [think], [is_safe_tile], [get_manhattan_dist] and
    [warning_tile_clause] and states the properties of the design document
    over that embedding. *)

From stdpp Require Import gmap strings list.
From Stdlib Require Import ZArith Lia.

Local Open Scope string_scope.
Local Open Scope list_scope.
Local Open Scope Z_scope.

(** ** Data *)

(** A maze location, a Python [tuple[int, int]] of unbounded integers. *)
Definition coord : Type := Z * Z.

(** A proposition [("P", loc)] and a literal [(("P", loc), polarity)], as the
    tuples handed to the [MazeClause] constructor. *)
Definition prop : Type := string * coord.
Definition literal : Type := prop * bool.

(** The argument list of [MazeClause([...])]: the disjunction of its
    literals. *)
Definition MazeClause : Type := list literal.

(** [MazeClause([(("P", loc), b)])], the unit clause every query and every
    confirmed fact uses. *)
Definition P (l : coord) (b : bool) : MazeClause := [(("P", l), b)].

(** Modelled from the spec: the class [MazeKnowledgeBase]
    (maze_knowledge_base.py) is not among the sources.  The agent owns the
    knowledge base exclusively and changes it only through [tell] and
    [simplify_self]; [ask] "must not mutate the persistent store".  A
    knowledge base is therefore represented by the calls made on it since
    [MazeKnowledgeBase()], oldest first, and [ask] is an arbitrary function of
    that history (a parameter of the agent below). *)
Inductive kb_call : Type :=
  | Tell (c : MazeClause)
  | SimplifySelf (pits safe : gset coord).

Definition MazeKnowledgeBase : Type := list kb_call.

(** The clauses told so far, in order. *)
Fixpoint told (k : MazeKnowledgeBase) : list MazeClause :=
  match k with
  | [] => []
  | Tell c :: k' => c :: told k'
  | SimplifySelf _ _ :: k' => told k'
  end.

(** The part of [Environment] the agent reads.  The two set-valued queries
    are given as lists: the elements of the returned Python set in its
    iteration order. *)
Record Environment : Type := {
  get_goal_loc : coord;
  get_player_loc : coord;
  get_cardinal_locs : coord -> Z -> list coord;
  get_frontier_locs : list coord
}.

(** The perception dictionary [{"loc": (x, y), "tile": tile_type}]. *)
Record perception : Type := {
  perc_loc : coord;
  perc_tile : string
}.

(** The attributes of a [MazeAgent] ([self.maze] is never read and is left
    out). *)
Record MazeAgent : Type := {
  env : Environment;
  goal : coord;
  start : coord;
  kb : MazeKnowledgeBase;
  possible_pits : gset coord;
  pit_tiles : gset coord;
  safe_tiles : gset coord
}.

(** What a call hands back to its caller: a value ([None] or a location) or
    a raised exception. *)
Inductive exn : Type := IndexError.

Inductive outcome : Type :=
  | Return (v : option coord)
  | Raise (e : exn).

(** [best_score] starts as [float("inf")] and is afterwards an [int]. *)
Inductive pynum : Type :=
  | Inf
  | Int (z : Z).

(** ** Attribute updates *)

Definition with_kb (self : MazeAgent) (k : MazeKnowledgeBase) : MazeAgent :=
  {| env := env self; goal := goal self; start := start self; kb := k;
     possible_pits := possible_pits self; pit_tiles := pit_tiles self;
     safe_tiles := safe_tiles self |}.

Definition with_possible_pits (self : MazeAgent) (s : gset coord) : MazeAgent :=
  {| env := env self; goal := goal self; start := start self; kb := kb self;
     possible_pits := s; pit_tiles := pit_tiles self;
     safe_tiles := safe_tiles self |}.

Definition with_pit_tiles (self : MazeAgent) (s : gset coord) : MazeAgent :=
  {| env := env self; goal := goal self; start := start self; kb := kb self;
     possible_pits := possible_pits self; pit_tiles := s;
     safe_tiles := safe_tiles self |}.

Definition with_safe_tiles (self : MazeAgent) (s : gset coord) : MazeAgent :=
  {| env := env self; goal := goal self; start := start self; kb := kb self;
     possible_pits := possible_pits self; pit_tiles := pit_tiles self;
     safe_tiles := s |}.

(** [self.kb.tell(c)] *)
Definition kb_tell (c : MazeClause) (self : MazeAgent) : MazeAgent :=
  with_kb self (kb self ++ [Tell c]).

(** [self.kb.simplify_self(self.pit_tiles, self.safe_tiles)] *)
Definition kb_simplify_self (self : MazeAgent) : MazeAgent :=
  with_kb self (kb self ++ [SimplifySelf (pit_tiles self) (safe_tiles self)]).

(** [self.safe_tiles.add(l)], [self.pit_tiles.add(l)],
    [self.possible_pits.add(l)] and [self.possible_pits.discard(l)] *)
Definition safe_tiles_add (l : coord) (self : MazeAgent) : MazeAgent :=
  with_safe_tiles self ({[l]} ∪ safe_tiles self).

Definition pit_tiles_add (l : coord) (self : MazeAgent) : MazeAgent :=
  with_pit_tiles self ({[l]} ∪ pit_tiles self).

Definition possible_pits_add (l : coord) (self : MazeAgent) : MazeAgent :=
  with_possible_pits self ({[l]} ∪ possible_pits self).

Definition possible_pits_discard (l : coord) (self : MazeAgent) : MazeAgent :=
  with_possible_pits self (possible_pits self ∖ {[l]}).

(** ** [__init__] *)

Definition MazeAgent_init (e : Environment) (p : perception) : MazeAgent :=
  let g := get_goal_loc e in
  let s := get_player_loc e in
  let self :=
    {| env := e; goal := g; start := s; kb := [];
       possible_pits := ∅; pit_tiles := ∅; safe_tiles := ∅ |} in
  let self := safe_tiles_add (start self) self in
  let self := safe_tiles_add (goal self) self in
  fold_left (fun self tile => safe_tiles_add tile self)
            (get_cardinal_locs e (start self) 1) self.

(** ** [get_manhattan_dist] *)

Definition get_manhattan_dist (self : MazeAgent) (l : coord) : Z :=
  Z.abs (fst l - fst (goal self)) + Z.abs (snd l - snd (goal self)).

(** ** [warning_tile_clause] *)

(** The nested loops [for i in range(len(adj_list)): for j in range(i+1,
    len(adj_list))], telling the two-literal clause on [adj_list[i]] and
    [adj_list[j]] with polarity [b]: the clauses in the order they are
    told. *)
Fixpoint pair_clauses (b : bool) (adj_list : list coord) : list MazeClause :=
  match adj_list with
  | [] => []
  | ti :: rest =>
      map (fun tj => [(("P", ti), b); (("P", tj), b)]) rest
      ++ pair_clauses b rest
  end.

(** The clause [triple], with one literal of polarity [b] per element of
    [adj_list]. *)
Definition triple (b : bool) (adj_list : list coord) : MazeClause :=
  map (fun t => (("P", t), b)) adj_list.

Definition tell_all (cs : list MazeClause) (self : MazeAgent) : MazeAgent :=
  fold_left (fun self c => kb_tell c self) cs self.

Definition warning_tile_clause (warning_num : string) (l : coord)
    (self : MazeAgent) : MazeAgent :=
  let adjacent_tiles := get_cardinal_locs (env self) l 1 in
  let adj_list := filter (fun tile => tile ∉ safe_tiles self) adjacent_tiles in
  let self :=
    if decide (warning_num = "3") then
      fold_left (fun self tile => kb_tell (P tile true) (pit_tiles_add tile self))
                adjacent_tiles self
    else if decide (warning_num = "2") then
      match adj_list with
      | [a0; a1] =>
          let self := kb_tell (P a0 true) self in
          let self := kb_tell (P a1 true) self in
          let self := pit_tiles_add a0 self in
          pit_tiles_add a1 self
      | _ =>
          let self := tell_all (pair_clauses true adj_list) self in
          kb_tell (triple false adj_list) self
      end
    else if decide (warning_num = "1") then
      match adj_list with
      | [a0] =>
          let self := kb_tell (P a0 true) self in
          pit_tiles_add a0 self
      | _ =>
          let self := tell_all (pair_clauses false adj_list) self in
          kb_tell (triple true adj_list) self
      end
    else self in
  kb_simplify_self self.

(** ** [think] and [is_safe_tile] *)

(** The dictionary [scores]: keys in insertion order; assigning to a key
    that is present replaces its value in place. *)
Fixpoint dict_set (d : list (coord * Z)) (k : coord) (v : Z) : list (coord * Z) :=
  match d with
  | [] => [(k, v)]
  | (k', v') :: d' =>
      if decide (k' = k) then (k, v) :: d' else (k', v') :: dict_set d' k v
  end.

(** [x < best_score] for an [int] [x]. *)
Definition lt_pynum (x : Z) (b : pynum) : bool :=
  match b with
  | Inf => true
  | Int y => bool_decide (x < y)
  end.

(** Truth value of [best_score] in [if assigned and best_score]. *)
Definition truthy (b : pynum) : bool :=
  match b with
  | Inf => true
  | Int y => negb (bool_decide (y = 0))
  end.

(** [random.choice(seq)]: the element at the index drawn below [len(seq)],
    [IndexError] on an empty sequence.  [draw] is the random source. *)
Definition random_choice (draw : nat) (seq : list coord) : outcome :=
  match seq with
  | [] => Raise IndexError
  | x :: _ => Return (Some (nth (draw mod length seq)%nat seq x))
  end.

Section Agent.

(** [self.kb.ask(clause)], a function of the knowledge base's history. *)
Variable ask : MazeKnowledgeBase -> MazeClause -> bool.

(** Lines 89-114: the classification of the tile the agent stands on. *)
Definition classify (tile_type : string) (location : coord)
    (self : MazeAgent) : MazeAgent :=
  if decide (tile_type = "P") then
    let self := kb_tell (P location true) self in
    let self := possible_pits_discard location self in
    pit_tiles_add location self
  else if decide (tile_type = ".") then
    let self := kb_tell (P location false) self in
    let self := safe_tiles_add location self in
    let self := possible_pits_discard location self in
    let adjacent_tiles := get_cardinal_locs (env self) location 1 in
    fold_left
      (fun self tile =>
         let self := safe_tiles_add tile self in
         let self := possible_pits_discard tile self in
         kb_tell (P tile false) self)
      adjacent_tiles self
  else
    let self := warning_tile_clause tile_type location self in
    let self := safe_tiles_add location self in
    let self := possible_pits_discard location self in
    let possible := get_cardinal_locs (env self) location 1 in
    fold_left
      (fun self coordinates =>
         if decide (coordinates ∉ safe_tiles self)
         then possible_pits_add coordinates self
         else self)
      possible self.

(** Lines 119-124: the two queries on a frontier location. *)
Definition query (l : coord) (self : MazeAgent) : MazeAgent :=
  let self :=
    if ask (kb self) (P l true)
    then possible_pits_discard l (pit_tiles_add l self)
    else self in
  if ask (kb self) (P l false)
  then possible_pits_discard l (safe_tiles_add l self)
  else self.

(** Lines 126-135: the score given to a frontier location. *)
Definition score (self : MazeAgent) (l : coord) : Z :=
  if decide (l ∈ pit_tiles self) then get_manhattan_dist self l + 20
  else if decide ((l ∉ possible_pits self) ∧ (l ∈ safe_tiles self))
       then get_manhattan_dist self l
       else get_manhattan_dist self l + 15.

(** One iteration of [for loc in frontier]; the state of the loop is the
    agent, [scores] and [assigned]. *)
Definition frontier_step (st : MazeAgent * list (coord * Z) * bool)
    (l : coord) : MazeAgent * list (coord * Z) * bool :=
  let '(self, scores, assigned) := st in
  let self := query l self in
  (self, dict_set scores l (score self l), true).

(** One iteration of [for loc in scores]; the state is [best_score] and
    [best_location]. *)
Definition best_step (st : pynum * option coord) (kv : coord * Z)
    : pynum * option coord :=
  if lt_pynum (snd kv) (fst st) then (Int (snd kv), Some (fst kv)) else st.

(** Lines 76-77: the goal is asserted safe at every step. *)
Definition assert_goal (self : MazeAgent) : MazeAgent :=
  let self := kb_tell (P (goal self) false) self in
  safe_tiles_add (goal self) self.

(** Lines 89-116: the tile is classified and the knowledge base
    simplified. *)
Definition observe (p : perception) (self : MazeAgent) : MazeAgent :=
  let self := classify (perc_tile p) (perc_loc p) self in
  kb_simplify_self self.

(** Lines 118-135: the loop over the frontier, from an empty [scores] and
    [assigned = False]. *)
Definition score_frontier (frontier : list coord) (self : MazeAgent)
    : MazeAgent * list (coord * Z) * bool :=
  fold_left frontier_step frontier (self, [], false).

(** Lines 137-140. *)
Definition best (scores : list (coord * Z)) : pynum * option coord :=
  fold_left best_step scores (Inf, None).

Definition think (self : MazeAgent) (p : perception) (draw : nat)
    : MazeAgent * outcome :=
  let self := assert_goal self in
  let frontier := get_frontier_locs (env self) in
  if decide (goal self ∈ get_frontier_locs (env self)) then
    (self, Return (Some (goal self)))
  else
    let self := observe p self in
    let '(self, scores, assigned) := score_frontier frontier self in
    let '(best_score, best_location) := best scores in
    if andb assigned (truthy best_score) then (self, Return best_location)
    else (self, random_choice draw frontier).

(** [is_safe_tile]: [Some true], [Some false] or [None]. *)
Definition is_safe_tile (self : MazeAgent) (l : coord) : option bool :=
  if decide (l ∈ safe_tiles self) then Some true
  else if decide (l ∈ pit_tiles self) then Some false
  else if ask (kb self) (P l true) then Some false
  else if ask (kb self) (P l false) then Some true
  else None.

(** The agent after the queries on every location of [frontier], without
    the bookkeeping of [scores]. *)
Definition queries (frontier : list coord) (self : MazeAgent) : MazeAgent :=
  fold_left (fun self l => query l self) frontier self.

End Agent.

(** ** Notions used in the statements *)

(** Two agent states that live in the same world: same environment, goal and
    start. *)
Definition same_world (s s' : MazeAgent) : Prop :=
  env s' = env s ∧ goal s' = goal s ∧ start s' = start s.

(** What every reachable agent satisfies: the goal is known safe and no
    location is at once known safe and a possible pit. *)
Definition consistent (self : MazeAgent) : Prop :=
  goal self ∈ safe_tiles self
  ∧ possible_pits self ## safe_tiles self.

(** The score of the design document: the Manhattan distance to the goal,
    |column - goal column| + |row - goal row|, plus 20 for a confirmed pit,
    plus nothing for a confirmed safe tile, plus 15 for a location that is
    neither.  It is written out from the design document and does not go
    through [get_manhattan_dist]. *)
Definition frontier_score (self : MazeAgent) (l : coord) : Z :=
  Z.abs (fst l - fst (goal self)) + Z.abs (snd l - snd (goal self))
  + (if decide (l ∈ pit_tiles self) then 20
     else if decide (l ∈ safe_tiles self) then 0
     else 15).

(** The tile labels of the perception interface. *)
Definition recognized_tiles : list string := ["."; "P"; "1"; "2"; "3"].

(** What the clear-tile rule promises about the agent [self'] a step leaves
    behind: the current location and its cardinal neighbours are known
    safe, are no possible pits, and each had its unit clause told during the
    step. *)
Definition clear_tile_recorded (self : MazeAgent) (p : perception)
    (self' : MazeAgent) : Prop :=
  forall t, t ∈ perc_loc p :: get_cardinal_locs (env self) (perc_loc p) 1 ->
    t ∈ safe_tiles self'
    ∧ (t ∉ possible_pits self')
    ∧ exists new, (kb self' = kb self ++ new) ∧ (P t false ∈ told new).

(** ** Assignments of pits and the clauses they satisfy *)

(** An assignment says of every location whether it hosts a pit.  A literal
    holds when the assignment gives its location its polarity, a clause when
    one of its literals holds. *)
Definition holds (pit : coord -> bool) (lit : literal) : bool :=
  Bool.eqb (pit (snd (fst lit))) (snd lit).

Definition satisfies (pit : coord -> bool) (c : MazeClause) : bool :=
  existsb (holds pit) c.

Definition satisfies_all (pit : coord -> bool) (cs : list MazeClause) : bool :=
  forallb (satisfies pit) cs.

(** The number of pits an assignment puts on the locations [N]. *)
Definition pits_among (pit : coord -> bool) (N : list coord) : nat :=
  length (List.filter pit N).

(** The locations a clause mentions. *)
Definition mentions (c : MazeClause) : list coord :=
  (fun lit : literal => snd (fst lit)) <$> c.

(** The cardinal neighbours of [l] not already known safe ([adj_list] of the
    encoder). *)
Definition unresolved (self : MazeAgent) (l : coord) : list coord :=
  filter (fun tile => tile ∉ safe_tiles self)
         (get_cardinal_locs (env self) l 1).

(** The clauses one call of the encoder tells. *)
Definition generated (warning_num : string) (l : coord) (self : MazeAgent)
    : list MazeClause :=
  told (drop (length (kb self)) (kb (warning_tile_clause warning_num l self))).

(** ** An example world *)

(** An open grid: the four neighbours at distance [r], west, east, north
    and south. *)
Definition cross (l : coord) (r : Z) : list coord :=
  [(fst l - r, snd l); (fst l + r, snd l); (fst l, snd l - r); (fst l, snd l + r)].

(** The agent starts at (1,2) and looks for the goal at (5,5). *)
Definition open_grid (frontier : list coord) : Environment :=
  {| get_goal_loc := (5, 5); get_player_loc := (1, 2);
     get_cardinal_locs := cross; get_frontier_locs := frontier |}.

Definition fresh_agent (frontier : list coord) : MazeAgent :=
  MazeAgent_init (open_grid frontier) {| perc_loc := (1, 2); perc_tile := "." |}.

(** A knowledge base that entails nothing, and one that entails every
    query. *)
Definition ask_nothing : MazeKnowledgeBase -> MazeClause -> bool :=
  fun _ _ => false.

Definition ask_everything : MazeKnowledgeBase -> MazeClause -> bool :=
  fun _ _ => true.

(** The frontier around the start. *)
Definition first_frontier : list coord := [(0, 2); (2, 2); (1, 1); (1, 3)].

(** The agent after it went east from the start and fell into a pit at
    (3,2). *)
Definition after_pit (ask : MazeKnowledgeBase -> MazeClause -> bool)
    : MazeAgent :=
  fst (think ask (fresh_agent [(4, 2); (3, 1); (3, 3)])
             {| perc_loc := (3, 2); perc_tile := "P" |} 0).

(** * Properties *)

(** ** Initialization *)

Lemma fold_safe_tiles_add (tiles : list coord) (self : MazeAgent) :
  let self' := fold_left (fun self tile => safe_tiles_add tile self) tiles self in
  safe_tiles self' = list_to_set tiles ∪ safe_tiles self
  ∧ pit_tiles self' = pit_tiles self
  ∧ possible_pits self' = possible_pits self
  ∧ kb self' = kb self
  ∧ goal self' = goal self.
Proof.
  revert self. induction tiles as [|t tiles IH]; intros self; simpl.
  - repeat split. set_solver.
  - destruct (IH (safe_tiles_add t self)) as (Hs & Hp & Hq & Hk & Hg).
    rewrite Hs, Hp, Hq, Hk, Hg. simpl. repeat split. set_solver.
Qed.

(** C9. Right after construction the safe set is exactly the start, the goal
    and the cardinal neighbours of the start at radius 1; the set of known
    pits and the set of possible pits are empty; nothing has been told to
    the knowledge base. *)
Theorem MazeAgent_init_state (e : Environment) (p : perception) :
  let self := MazeAgent_init e p in
  safe_tiles self
    = {[get_player_loc e; get_goal_loc e]}
      ∪ list_to_set (get_cardinal_locs e (get_player_loc e) 1)
  ∧ pit_tiles self = ∅
  ∧ possible_pits self = ∅
  ∧ kb self = [].
Proof.
  unfold MazeAgent_init. cbv zeta.
  match goal with
  | |- context [fold_left ?f ?l ?a] =>
      destruct (fold_safe_tiles_add l a) as (Hs & Hp & Hq & Hk & _)
  end.
  cbv zeta in Hs, Hp, Hq, Hk. rewrite Hs, Hp, Hq, Hk. simpl.
  repeat split. set_solver.
Qed.

(** ** [is_safe_tile] *)

Section Safe.

Variable ask : MazeKnowledgeBase -> MazeClause -> bool.

(** C10. [is_safe_tile] looks at the safe set first, then at the pit set,
    then asks the knowledge base for "pit" and last for "no pit". *)
Theorem is_safe_tile_precedence (self : MazeAgent) (l : coord) :
  (l ∈ safe_tiles self -> is_safe_tile ask self l = Some true)
  ∧ (l ∉ safe_tiles self -> l ∈ pit_tiles self ->
     is_safe_tile ask self l = Some false)
  ∧ (l ∉ safe_tiles self -> l ∉ pit_tiles self ->
     ask (kb self) (P l true) = true ->
     is_safe_tile ask self l = Some false)
  ∧ (l ∉ safe_tiles self -> l ∉ pit_tiles self ->
     ask (kb self) (P l true) = false ->
     ask (kb self) (P l false) = true ->
     is_safe_tile ask self l = Some true)
  ∧ (l ∉ safe_tiles self -> l ∉ pit_tiles self ->
     ask (kb self) (P l true) = false ->
     ask (kb self) (P l false) = false ->
     is_safe_tile ask self l = None).
Proof.
  unfold is_safe_tile.
  repeat split; intros; repeat case_decide; try done;
    repeat match goal with H : ask _ _ = _ |- _ => rewrite H end; done.
Qed.

End Safe.

(** ** The frontier loop *)

Section Frontier.

Variable ask : MazeKnowledgeBase -> MazeClause -> bool.

Lemma query_frame (l : coord) (self : MazeAgent) :
  env (query ask l self) = env self
  ∧ goal (query ask l self) = goal self
  ∧ start (query ask l self) = start self
  ∧ kb (query ask l self) = kb self.
Proof.
  unfold query. simpl.
  destruct (ask (kb self) (P l true)); simpl;
    destruct (ask (kb self) (P l false)); simpl; done.
Qed.

Lemma query_pit_tiles (l t : coord) (self : MazeAgent) :
  t ∈ pit_tiles (query ask l self)
  <-> t ∈ pit_tiles self ∨ (t = l ∧ ask (kb self) (P l true) = true).
Proof.
  unfold query.
  destruct (ask (kb self) (P l true)); simpl;
    destruct (ask (kb self) (P l false)); simpl; set_solver.
Qed.

Lemma query_safe_tiles (l t : coord) (self : MazeAgent) :
  t ∈ safe_tiles (query ask l self)
  <-> t ∈ safe_tiles self ∨ (t = l ∧ ask (kb self) (P l false) = true).
Proof.
  unfold query.
  destruct (ask (kb self) (P l true)); simpl;
    destruct (ask (kb self) (P l false)); simpl; set_solver.
Qed.

Lemma query_possible_pits (l t : coord) (self : MazeAgent) :
  t ∈ possible_pits (query ask l self)
  <-> t ∈ possible_pits self
      ∧ ¬ (t = l ∧ (ask (kb self) (P l true) = true
                    ∨ ask (kb self) (P l false) = true)).
Proof.
  unfold query.
  destruct (ask (kb self) (P l true)); simpl;
    destruct (ask (kb self) (P l false)); simpl; set_solver.
Qed.

Lemma queries_snoc (pre : list coord) (l : coord) (self : MazeAgent) :
  queries ask (pre ++ [l]) self = query ask l (queries ask pre self).
Proof. unfold queries. by rewrite fold_left_app. Qed.

Lemma queries_frame (frontier : list coord) (self : MazeAgent) :
  env (queries ask frontier self) = env self
  ∧ goal (queries ask frontier self) = goal self
  ∧ start (queries ask frontier self) = start self
  ∧ kb (queries ask frontier self) = kb self.
Proof.
  induction frontier as [|l frontier IH] using rev_ind; [done|].
  rewrite queries_snoc.
  destruct (query_frame l (queries ask frontier self)) as (-> & -> & -> & ->).
  exact IH.
Qed.

Lemma queries_pit_tiles (frontier : list coord) (t : coord) (self : MazeAgent) :
  t ∈ pit_tiles (queries ask frontier self)
  <-> t ∈ pit_tiles self
      ∨ (t ∈ frontier ∧ ask (kb self) (P t true) = true).
Proof.
  induction frontier as [|l frontier IH] using rev_ind.
  - simpl. set_solver.
  - rewrite queries_snoc, query_pit_tiles, IH.
    destruct (queries_frame frontier self) as (_ & _ & _ & ->).
    rewrite elem_of_app, list_elem_of_singleton. naive_solver.
Qed.

Lemma queries_safe_tiles (frontier : list coord) (t : coord) (self : MazeAgent) :
  t ∈ safe_tiles (queries ask frontier self)
  <-> t ∈ safe_tiles self
      ∨ (t ∈ frontier ∧ ask (kb self) (P t false) = true).
Proof.
  induction frontier as [|l frontier IH] using rev_ind.
  - simpl. set_solver.
  - rewrite queries_snoc, query_safe_tiles, IH.
    destruct (queries_frame frontier self) as (_ & _ & _ & ->).
    rewrite elem_of_app, list_elem_of_singleton. naive_solver.
Qed.

Lemma queries_possible_pits (frontier : list coord) (t : coord)
    (self : MazeAgent) :
  t ∈ possible_pits (queries ask frontier self)
  <-> t ∈ possible_pits self
      ∧ ¬ (t ∈ frontier ∧ (ask (kb self) (P t true) = true
                           ∨ ask (kb self) (P t false) = true)).
Proof.
  induction frontier as [|l frontier IH] using rev_ind.
  - simpl. set_solver.
  - rewrite queries_snoc, query_possible_pits, IH.
    destruct (queries_frame frontier self) as (_ & _ & _ & ->).
    rewrite elem_of_app, list_elem_of_singleton. naive_solver.
Qed.

(** The score of a location depends on the goal and on which of the three
    sets hold the location, on nothing else. *)
Lemma score_ext (s1 s2 : MazeAgent) (l : coord) :
  goal s1 = goal s2 ->
  (l ∈ pit_tiles s1 <-> l ∈ pit_tiles s2) ->
  (l ∈ possible_pits s1 <-> l ∈ possible_pits s2) ->
  (l ∈ safe_tiles s1 <-> l ∈ safe_tiles s2) ->
  score s1 l = score s2 l.
Proof.
  intros Hg Hp Hq Hs. unfold score, get_manhattan_dist. rewrite Hg.
  repeat case_decide; naive_solver.
Qed.

(** The score a location gets in its own iteration is the one the agent's
    sets give it when the loop is over. *)
Lemma score_at_iteration (pre frontier : list coord) (l : coord)
    (self : MazeAgent) :
  l ∈ frontier ->
  score (query ask l (queries ask pre self)) l = score (queries ask frontier self) l.
Proof.
  intros Hl.
  destruct (queries_frame pre self) as (_ & Hg1 & _ & Hk1).
  destruct (queries_frame frontier self) as (_ & Hg2 & _ & _).
  destruct (query_frame l (queries ask pre self)) as (_ & Hg3 & _ & _).
  apply score_ext.
  - congruence.
  - rewrite query_pit_tiles, !queries_pit_tiles, Hk1. naive_solver.
  - rewrite query_possible_pits, !queries_possible_pits, Hk1. naive_solver.
  - rewrite query_safe_tiles, !queries_safe_tiles, Hk1. naive_solver.
Qed.

End Frontier.

(** ** The dictionary of scores and the search for the best one *)

Lemma dict_set_fresh (d : list (coord * Z)) (k : coord) (v : Z) :
  k ∉ d.*1 -> dict_set d k v = d ++ [(k, v)].
Proof.
  induction d as [|[k' v'] d IH]; simpl; intros Hk; [done|].
  rewrite not_elem_of_cons in Hk. destruct Hk as [Hne Hk].
  case_decide; [congruence|]. by rewrite IH.
Qed.

Lemma fold_dict_set_fresh (f : coord -> Z) (frontier : list coord)
    (d : list (coord * Z)) :
  NoDup frontier ->
  (forall k, k ∈ frontier -> k ∉ d.*1) ->
  fold_left (fun d l => dict_set d l (f l)) frontier d
  = d ++ ((fun l => (l, f l)) <$> frontier).
Proof.
  revert d. induction frontier as [|l frontier IH]; intros d Hnd Hfresh; simpl.
  - by rewrite app_nil_r.
  - apply NoDup_cons in Hnd as [Hl Hnd].
    rewrite dict_set_fresh by (apply Hfresh; left).
    rewrite IH; [by rewrite <- app_assoc | done |].
    intros k Hk. rewrite fmap_app, elem_of_app. simpl.
    rewrite list_elem_of_singleton. intros [Hin | ->]; [|done].
    revert Hin. apply Hfresh. by right.
Qed.

Lemma best_step_fold (scores : list (coord * Z)) (v0 : Z) (b0 : coord) :
  exists v b,
    fold_left best_step scores (Int v0, Some b0) = (Int v, Some b)
    ∧ ((v = v0 ∧ b = b0 ∧ forall kv, kv ∈ scores -> v0 <= snd kv)
       ∨ (exists i : nat,
            scores !! i = Some (b, v) ∧ v < v0
            ∧ (forall kv, kv ∈ scores -> v <= snd kv)
            ∧ (forall (j : nat) kv,
                 (j < i)%nat -> scores !! j = Some kv -> v < snd kv))).
Proof.
  revert v0 b0. induction scores as [|[k x] scores IH]; intros v0 b0.
  - exists v0, b0. split; [done|]. left. repeat split. intros kv Hkv.
    by apply elem_of_nil in Hkv.
  - simpl. unfold best_step at 2. simpl. case_bool_decide as Hlt.
    + destruct (IH x k) as (v & b & -> & Hcase). exists v, b. split; [done|].
      right. destruct Hcase as [(-> & -> & Hall) | (i & Hi & Hvi & Hall & Hbefore)].
      * exists 0%nat. repeat split; [done| |lia].
        intros kv [-> | Hkv]%elem_of_cons; simpl; [lia | by apply Hall].
      * exists (S i). repeat split; [done | lia | |].
        -- intros kv [-> | Hkv]%elem_of_cons; simpl; [lia | by apply Hall].
        -- intros [|j] kv Hj Hkv; simpl in Hkv.
           ++ inversion Hkv; subst; simpl. lia.
           ++ apply (Hbefore j); [lia | done].
    + destruct (IH v0 b0) as (v & b & -> & Hcase). exists v, b. split; [done|].
      destruct Hcase as [(-> & -> & Hall) | (i & Hi & Hvi & Hall & Hbefore)].
      * left. repeat split.
        intros kv [-> | Hkv]%elem_of_cons; simpl; [lia | by apply Hall].
      * right. exists (S i). repeat split; [done | lia | |].
        -- intros kv [-> | Hkv]%elem_of_cons; simpl; [lia | by apply Hall].
        -- intros [|j] kv Hj Hkv; simpl in Hkv.
           ++ inversion Hkv; subst; simpl. lia.
           ++ apply (Hbefore j); [lia | done].
Qed.

(** On a non-empty dictionary the loop of lines 137-140 ends on the first
    entry of least score. *)
Lemma best_first_minimum (scores : list (coord * Z)) :
  scores ≠ [] ->
  exists v b (i : nat),
    best scores = (Int v, Some b)
    ∧ scores !! i = Some (b, v)
    ∧ (forall kv, kv ∈ scores -> v <= snd kv)
    ∧ (forall (j : nat) kv, (j < i)%nat -> scores !! j = Some kv -> v < snd kv).
Proof.
  destruct scores as [|[k x] scores]; [done|]. intros _.
  unfold best. simpl. unfold best_step at 2. simpl.
  destruct (best_step_fold scores x k) as (v & b & -> & Hcase).
  exists v, b.
  destruct Hcase as [(-> & -> & Hall) | (i & Hi & Hvi & Hall & Hbefore)].
  - exists 0%nat. repeat split; [|lia].
    intros kv [-> | Hkv]%elem_of_cons; simpl; [lia | by apply Hall].
  - exists (S i). repeat split; [done| |].
    + intros kv [-> | Hkv]%elem_of_cons; simpl; [lia | by apply Hall].
    + intros [|j] kv Hj Hkv; simpl in Hkv.
      * inversion Hkv; subst; simpl. lia.
      * apply (Hbefore j); [lia | done].
Qed.

(** ** The effect of the encoder and of the classification on the agent *)

(** Reads an attribute through the attribute updates above. *)
Ltac read_attributes :=
  cbn [env goal start kb safe_tiles possible_pits pit_tiles assert_goal
       with_kb with_pit_tiles with_safe_tiles with_possible_pits
       kb_tell kb_simplify_self safe_tiles_add pit_tiles_add
       possible_pits_add possible_pits_discard] in *.

Lemma tell_all_effect (cs : list MazeClause) (self : MazeAgent) :
  let self' := tell_all cs self in
  same_world self self'
  ∧ kb self' = kb self ++ (Tell <$> cs)
  ∧ pit_tiles self' = pit_tiles self
  ∧ safe_tiles self' = safe_tiles self
  ∧ possible_pits self' = possible_pits self.
Proof.
  unfold tell_all, same_world. revert self.
  induction cs as [|c cs IH]; intros self; simpl.
  - by rewrite app_nil_r.
  - destruct (IH (kb_tell c self)) as ((-> & -> & ->) & -> & -> & -> & ->).
    simpl. by rewrite <- app_assoc.
Qed.

(** The loop of the ["3"] branch (lines 181-184). *)
Lemma all_pits_effect (tiles : list coord) (self : MazeAgent) :
  let self' :=
    fold_left (fun self tile => kb_tell (P tile true) (pit_tiles_add tile self))
              tiles self in
  same_world self self'
  ∧ kb self' = kb self ++ ((fun t => Tell (P t true)) <$> tiles)
  ∧ pit_tiles self' = list_to_set tiles ∪ pit_tiles self
  ∧ safe_tiles self' = safe_tiles self
  ∧ possible_pits self' = possible_pits self.
Proof.
  unfold same_world. revert self.
  induction tiles as [|t tiles IH]; intros self; simpl.
  - rewrite app_nil_r. repeat split. set_solver.
  - destruct (IH (kb_tell (P t true) (pit_tiles_add t self)))
      as ((-> & -> & ->) & -> & -> & -> & ->).
    simpl. rewrite <- app_assoc. repeat split. set_solver.
Qed.

(** The encoder leaves the world, the safe set and the set of possible pits
    alone; it only adds to the pit set and to the knowledge base. *)
Lemma warning_tile_clause_frame (warning_num : string) (l : coord)
    (self : MazeAgent) :
  let self' := warning_tile_clause warning_num l self in
  same_world self self'
  ∧ safe_tiles self' = safe_tiles self
  ∧ possible_pits self' = possible_pits self
  ∧ pit_tiles self ⊆ pit_tiles self'.
Proof.
  unfold warning_tile_clause. cbv zeta.
  set (adjacent_tiles := get_cardinal_locs (env self) l 1).
  set (adj_list := filter _ adjacent_tiles).
  unfold same_world. read_attributes.
  repeat case_decide.
  - destruct (all_pits_effect adjacent_tiles self)
      as ((-> & -> & ->) & _ & -> & -> & ->).
    repeat split. set_solver.
  - destruct adj_list as [|a0 [|a1 [|a2 rest]]]; read_attributes;
      try (repeat split; set_solver).
    all: match goal with
         | |- context [tell_all ?cs ?s] =>
             by destruct (tell_all_effect cs s)
               as ((-> & -> & ->) & _ & -> & -> & ->)
         end.
  - destruct adj_list as [|a0 [|a1 rest]]; read_attributes;
      try (repeat split; set_solver).
    all: match goal with
         | |- context [tell_all ?cs ?s] =>
             by destruct (tell_all_effect cs s)
               as ((-> & -> & ->) & _ & -> & -> & ->)
         end.
  - done.
Qed.

(** A label other than ["1"], ["2"] and ["3"] makes the encoder tell
    nothing: it only simplifies the knowledge base. *)
Lemma warning_tile_clause_other (warning_num : string) (l : coord)
    (self : MazeAgent) :
  warning_num ≠ "3" -> warning_num ≠ "2" -> warning_num ≠ "1" ->
  warning_tile_clause warning_num l self = kb_simplify_self self.
Proof.
  intros H3 H2 H1. unfold warning_tile_clause. cbv zeta.
  by repeat case_decide.
Qed.

(** The loop of the clear-tile branch (lines 101-104). *)
Lemma all_safe_effect (tiles : list coord) (self : MazeAgent) :
  let self' :=
    fold_left
      (fun self tile =>
         let self := safe_tiles_add tile self in
         let self := possible_pits_discard tile self in
         kb_tell (P tile false) self)
      tiles self in
  same_world self self'
  ∧ kb self' = kb self ++ ((fun t => Tell (P t false)) <$> tiles)
  ∧ pit_tiles self' = pit_tiles self
  ∧ safe_tiles self' = list_to_set tiles ∪ safe_tiles self
  ∧ possible_pits self' = possible_pits self ∖ list_to_set tiles.
Proof.
  unfold same_world. revert self.
  induction tiles as [|t tiles IH]; intros self; simpl.
  - rewrite app_nil_r. repeat split; set_solver.
  - match goal with
    | |- context [fold_left _ tiles ?a] =>
        destruct (IH a) as ((-> & -> & ->) & -> & -> & -> & ->)
    end.
    simpl. rewrite <- app_assoc. repeat split; set_solver.
Qed.

(** The loop of the warning branch (lines 112-114). *)
Lemma possible_pits_effect (tiles : list coord) (self : MazeAgent) :
  let self' :=
    fold_left
      (fun self coordinates =>
         if decide (coordinates ∉ safe_tiles self)
         then possible_pits_add coordinates self
         else self)
      tiles self in
  same_world self self'
  ∧ kb self' = kb self
  ∧ pit_tiles self' = pit_tiles self
  ∧ safe_tiles self' = safe_tiles self
  ∧ possible_pits self'
    = possible_pits self ∪ (list_to_set tiles ∖ safe_tiles self).
Proof.
  unfold same_world. revert self.
  induction tiles as [|t tiles IH]; intros self; simpl.
  - repeat split; set_solver.
  - match goal with
    | |- context [fold_left _ tiles ?a] =>
        destruct (IH a) as ((-> & -> & ->) & -> & -> & -> & ->)
    end.
    case_decide; simpl; repeat split; set_solver.
Qed.

(** The three branches of the classification. *)
Lemma classify_pit (location : coord) (self : MazeAgent) :
  let self' := classify "P" location self in
  same_world self self'
  ∧ kb self' = kb self ++ [Tell (P location true)]
  ∧ pit_tiles self' = {[location]} ∪ pit_tiles self
  ∧ safe_tiles self' = safe_tiles self
  ∧ possible_pits self' = possible_pits self ∖ {[location]}.
Proof. unfold classify, same_world. by case_decide. Qed.

Lemma classify_clear (location : coord) (self : MazeAgent) :
  let self' := classify "." location self in
  let tiles := location :: get_cardinal_locs (env self) location 1 in
  same_world self self'
  ∧ kb self' = kb self ++ ((fun t => Tell (P t false)) <$> tiles)
  ∧ pit_tiles self' = pit_tiles self
  ∧ safe_tiles self' = list_to_set tiles ∪ safe_tiles self
  ∧ possible_pits self' = possible_pits self ∖ list_to_set tiles.
Proof.
  unfold classify, same_world. cbv zeta. case_decide; [done|].
  case_decide; [|done]. read_attributes.
  match goal with
  | |- context [fold_left _ ?l ?a] =>
      destruct (all_safe_effect l a) as (Hw & Hk & Hp & Hs & Hq)
  end.
  cbv zeta in *. rewrite Hk, Hp, Hs, Hq. destruct Hw as (-> & -> & ->).
  read_attributes. rewrite <- app_assoc. simpl.
  repeat split; set_solver.
Qed.

Lemma classify_warning (tile_type : string) (location : coord)
    (self : MazeAgent) :
  tile_type ≠ "P" -> tile_type ≠ "." ->
  let encoded := warning_tile_clause tile_type location self in
  let self' := classify tile_type location self in
  let tiles := get_cardinal_locs (env self) location 1 in
  same_world self self'
  ∧ kb self' = kb encoded
  ∧ pit_tiles self' = pit_tiles encoded
  ∧ safe_tiles self' = {[location]} ∪ safe_tiles self
  ∧ possible_pits self'
    = (possible_pits self ∖ {[location]})
      ∪ (list_to_set tiles ∖ ({[location]} ∪ safe_tiles self)).
Proof.
  intros HP Hclear. unfold classify, same_world. cbv zeta.
  do 2 (case_decide; [done|]). read_attributes.
  destruct (warning_tile_clause_frame tile_type location self)
    as ((He & Hg & Hst) & Hs & Hq & _). cbv zeta in *.
  match goal with
  | |- context [fold_left _ ?l ?a] =>
      destruct (possible_pits_effect l a) as (Hw' & Hk' & Hp' & Hs' & Hq')
  end.
  cbv zeta in *. rewrite Hk', Hp', Hs', Hq'. destruct Hw' as (-> & -> & ->).
  read_attributes. rewrite He, Hg, Hst, Hs, Hq. done.
Qed.

Lemma classify_same_world (tile_type : string) (location : coord)
    (self : MazeAgent) :
  same_world self (classify tile_type location self).
Proof.
  destruct (decide (tile_type = "P")) as [-> | HP];
    [apply classify_pit|].
  destruct (decide (tile_type = ".")) as [-> | Hclear];
    [apply classify_clear|].
  by apply classify_warning.
Qed.

Lemma MazeAgent_init_consistent (e : Environment) (p : perception) :
  consistent (MazeAgent_init e p).
Proof.
  unfold consistent, MazeAgent_init. cbv zeta.
  match goal with
  | |- context [fold_left ?f ?l ?a] =>
      destruct (fold_safe_tiles_add l a) as (Hs & _ & Hq & _ & Hg)
  end.
  cbv zeta in *. rewrite Hs, Hq, Hg. simpl. set_solver.
Qed.

Lemma classify_consistent (tile_type : string) (location : coord)
    (self : MazeAgent) :
  consistent self -> consistent (classify tile_type location self).
Proof.
  unfold consistent. intros [Hgoal Hdisj].
  destruct (decide (tile_type = "P")) as [-> | HP].
  { destruct (classify_pit location self)
      as ((_ & Hg & _) & _ & _ & Hs & Hq). cbv zeta in *.
    rewrite Hg, Hs, Hq. set_solver. }
  destruct (decide (tile_type = ".")) as [-> | Hclear].
  { destruct (classify_clear location self)
      as ((_ & Hg & _) & _ & _ & Hs & Hq). cbv zeta in *.
    rewrite Hg, Hs, Hq. set_solver. }
  destruct (classify_warning tile_type location self HP Hclear)
    as ((_ & Hg & _) & _ & _ & Hs & Hq). cbv zeta in *.
  rewrite Hg, Hs, Hq. set_solver.
Qed.

(** ** The clauses told *)

Lemma told_app (k1 k2 : MazeKnowledgeBase) :
  told (k1 ++ k2) = told k1 ++ told k2.
Proof.
  induction k1 as [|[c | pits safe] k1 IH]; simpl; [done| |done].
  by rewrite IH.
Qed.

Lemma told_tells {A : Type} (f : A -> MazeClause) (xs : list A) :
  told ((fun x => Tell (f x)) <$> xs) = f <$> xs.
Proof. induction xs as [|x xs IH]; simpl; [done|]. f_equal. exact IH. Qed.

(** ** The whole step *)

Lemma get_manhattan_dist_pos (self : MazeAgent) (l : coord) :
  l ≠ goal self -> 1 <= get_manhattan_dist self l.
Proof.
  unfold get_manhattan_dist. destruct l as [c r], (goal self) as [gc gr].
  simpl. intros Hne.
  assert (c ≠ gc ∨ r ≠ gr) as [H | H]; [|lia..].
  destruct (decide (c = gc)) as [-> | ?]; [|by left].
  right. intros ->. done.
Qed.

Section Think.

Variable ask : MazeKnowledgeBase -> MazeClause -> bool.

Lemma score_ge_dist (self : MazeAgent) (l : coord) :
  get_manhattan_dist self l <= score self l.
Proof. unfold score. repeat case_decide; lia. Qed.

Lemma frontier_loop (whole pre frontier : list coord) (self : MazeAgent)
    (d : list (coord * Z)) (a : bool) :
  (forall l, l ∈ frontier -> l ∈ whole) ->
  fold_left (frontier_step ask) frontier (queries ask pre self, d, a)
  = (queries ask (pre ++ frontier) self,
     fold_left (fun d l => dict_set d l (score (queries ask whole self) l))
               frontier d,
     match frontier with [] => a | _ => true end).
Proof.
  revert pre d a. induction frontier as [|l frontier IH]; intros pre d a Hsub.
  - simpl. by rewrite app_nil_r.
  - simpl.
    rewrite (score_at_iteration ask pre whole) by (apply Hsub; left).
    rewrite <- queries_snoc.
    rewrite IH by (intros; apply Hsub; by right).
    rewrite <- app_assoc. simpl. by destruct frontier.
Qed.

(** The loop over the frontier, whatever the frontier holds. *)
Lemma score_frontier_eq (frontier : list coord) (self : MazeAgent) :
  score_frontier ask frontier self
  = (queries ask frontier self,
     fold_left (fun d l => dict_set d l (score (queries ask frontier self) l))
               frontier [],
     match frontier with [] => false | _ => true end).
Proof.
  unfold score_frontier.
  pose proof (frontier_loop frontier [] frontier self [] false
                (fun l H => H)) as Hloop.
  exact Hloop.
Qed.

(** With the goal off a non-empty frontier, [think] returns the first
    frontier location of least score, the scores being those of the
    agent's sets at the end of the step. *)
Lemma think_scored (self : MazeAgent) (p : perception) :
  let frontier := get_frontier_locs (env self) in
  let final := queries ask frontier (observe p (assert_goal self)) in
  goal self ∉ frontier ->
  frontier ≠ [] ->
  NoDup frontier ->
  snd (fst (score_frontier ask frontier (observe p (assert_goal self))))
  = (fun l => (l, score final l)) <$> frontier
  ∧ exists b (i : nat),
      (forall draw, think ask self p draw = (final, Return (Some b)))
      ∧ frontier !! i = Some b
      ∧ (forall l, l ∈ frontier -> score final b <= score final l)
      ∧ (forall (j : nat) l,
           (j < i)%nat -> frontier !! j = Some l ->
           score final b < score final l).
Proof.
  intros frontier final Hgoal Hne Hnd.
  assert (goal final = goal self) as Hg.
  { destruct (queries_frame ask frontier (observe p (assert_goal self)))
      as (_ & Hgq & _).
    destruct (classify_same_world (perc_tile p) (perc_loc p) (assert_goal self))
      as (_ & Hgc & _).
    unfold final. rewrite Hgq. unfold observe.
    read_attributes. by rewrite Hgc. }
  set (scores := (fun l => (l, score final l)) <$> frontier).
  assert (snd (fst (score_frontier ask frontier (observe p (assert_goal self))))
          = scores) as Hscores.
  { rewrite score_frontier_eq. simpl. fold final.
    rewrite fold_dict_set_fresh; [done|done|].
    intros k _ Hk. by apply elem_of_nil in Hk. }
  split; [done|].
  destruct (best_first_minimum scores) as (v & b & i & Hbest & Hi & Hall & Hbefore).
  { unfold scores. by destruct frontier. }
  unfold scores in Hi. rewrite list_lookup_fmap in Hi.
  destruct (frontier !! i) as [b'|] eqn:Hb; [|done].
  simpl in Hi. inversion Hi; subst b' v. clear Hi.
  assert (b ∈ frontier) as Hbin by (by eapply list_elem_of_lookup_2).
  assert (1 <= score final b) as Hpos.
  { etrans; [|apply score_ge_dist]. apply get_manhattan_dist_pos.
    rewrite Hg. intros ->. done. }
  exists b, i. split; [|split; [done|split]].
  - intros draw. unfold think. simpl. fold frontier.
    case_decide; [done|].
    rewrite score_frontier_eq in Hscores |- *. simpl in Hscores.
    rewrite Hscores, Hbest. fold final.
    replace (match frontier with [] => false | _ => true end) with true
      by (by destruct frontier).
    simpl. by rewrite bool_decide_eq_false_2 by lia.
  - intros l Hl. apply (Hall (l, score final l)).
    unfold scores. apply list_elem_of_fmap. by exists l.
  - intros j l Hj Hl. apply (Hbefore j (l, score final l)); [done|].
    unfold scores. by rewrite list_lookup_fmap, Hl.
Qed.

(** The agent a step leaves behind. *)
Lemma think_state (self : MazeAgent) (p : perception) (draw : nat) :
  let frontier := get_frontier_locs (env self) in
  fst (think ask self p draw)
  = if decide (goal self ∈ frontier) then assert_goal self
    else queries ask frontier (observe p (assert_goal self)).
Proof.
  unfold think. simpl. case_decide; [done|].
  rewrite score_frontier_eq.
  destruct (best _) as [best_score best_location].
  by destruct (andb _ _).
Qed.

Lemma assert_goal_effect (self : MazeAgent) :
  same_world self (assert_goal self)
  ∧ kb (assert_goal self) = kb self ++ [Tell (P (goal self) false)]
  ∧ pit_tiles (assert_goal self) = pit_tiles self
  ∧ safe_tiles (assert_goal self) = {[goal self]} ∪ safe_tiles self
  ∧ possible_pits (assert_goal self) = possible_pits self.
Proof. done. Qed.

Lemma assert_goal_consistent (self : MazeAgent) :
  consistent self -> consistent (assert_goal self).
Proof. unfold consistent. simpl. set_solver. Qed.

Lemma observe_consistent (p : perception) (self : MazeAgent) :
  consistent self -> consistent (observe p self).
Proof. intros H. by apply (classify_consistent (perc_tile p) (perc_loc p)) in H. Qed.

Lemma queries_consistent (frontier : list coord) (self : MazeAgent) :
  consistent self -> consistent (queries ask frontier self).
Proof.
  unfold consistent. intros [Hgoal Hdisj].
  destruct (queries_frame ask frontier self) as (_ & -> & _). split.
  - apply queries_safe_tiles. by left.
  - intros t Hq Hs. apply queries_possible_pits in Hq as [Hq Hno].
    apply queries_safe_tiles in Hs as [Hs | Hs]; [set_solver|].
    apply Hno. naive_solver.
Qed.

(** A step keeps the agent consistent. *)
Lemma think_consistent (self : MazeAgent) (p : perception) (draw : nat) :
  consistent self -> consistent (fst (think ask self p draw)).
Proof.
  intros H. rewrite think_state. cbv zeta. case_decide.
  - by apply assert_goal_consistent.
  - by apply queries_consistent, observe_consistent, assert_goal_consistent.
Qed.

(** On a consistent agent the score of the code is the score of the design
    document. *)
Lemma score_frontier_score (self : MazeAgent) (l : coord) :
  consistent self -> score self l = frontier_score self l.
Proof.
  intros [_ Hdisj]. unfold score, frontier_score, get_manhattan_dist.
  repeat case_decide; try lia; set_solver.
Qed.

(** C5. When the goal is on the frontier, [think] returns the goal, whatever
    the tile, the knowledge base and the other frontier locations are. *)
Theorem think_goal_shortcut (self : MazeAgent) (p : perception) (draw : nat) :
  goal self ∈ get_frontier_locs (env self) ->
  snd (think ask self p draw) = Return (Some (goal self)).
Proof. intros Hgoal. unfold think. simpl. by case_decide. Qed.

(** C4. With the goal off a non-empty frontier, every frontier location is
    scored with its Manhattan distance to the goal plus 20 when it is a
    confirmed pit, plus 0 when it is confirmed safe and plus 15 when it is
    neither, and [think] returns the first location of least score in the
    iteration order of the frontier, whatever the random draw. *)
Theorem think_selects_first_minimum (self : MazeAgent) (p : perception)
    (draw : nat) :
  let frontier := get_frontier_locs (env self) in
  let final := fst (think ask self p draw) in
  consistent self ->
  goal self ∉ frontier ->
  frontier ≠ [] ->
  NoDup frontier ->
  snd (fst (score_frontier ask frontier (observe p (assert_goal self))))
  = (fun l => (l, frontier_score final l)) <$> frontier
  ∧ exists b (i : nat),
      (forall draw', snd (think ask self p draw') = Return (Some b))
      ∧ frontier !! i = Some b
      ∧ (forall l, l ∈ frontier -> frontier_score final b <= frontier_score final l)
      ∧ (forall (j : nat) l,
           (j < i)%nat -> frontier !! j = Some l ->
           frontier_score final b < frontier_score final l).
Proof.
  intros frontier final Hcons Hgoal Hne Hnd.
  assert (consistent final) as Hfinal by (by apply think_consistent).
  destruct (think_scored self p Hgoal Hne Hnd)
    as (Hscores & b & i & Hthink & Hi & Hall & Hbefore).
  fold frontier in Hscores, Hi, Hall, Hbefore.
  assert (queries ask frontier (observe p (assert_goal self)) = final) as Hq.
  { unfold final. by rewrite Hthink. }
  rewrite Hq in *. split.
  - rewrite Hscores. apply list_fmap_ext. intros _ l _.
    by rewrite score_frontier_score.
  - exists b, i. split; [|split; [done|split]].
    + intros draw'. by rewrite Hthink.
    + intros l Hl. rewrite <- !score_frontier_score by done. by apply Hall.
    + intros j l Hj Hl. rewrite <- !score_frontier_score by done.
      by apply (Hbefore j).
Qed.

(** On an empty frontier no score is computed and the fallback
    [random.choice] raises [IndexError]. *)
Theorem think_empty_frontier_raises (self : MazeAgent) (p : perception)
    (draw : nat) :
  get_frontier_locs (env self) = [] ->
  snd (think ask self p draw) = Raise IndexError.
Proof.
  intros Hempty. unfold think, score_frontier. simpl. rewrite Hempty.
  case_decide as Hgoal; [by apply elem_of_nil in Hgoal|]. done.
Qed.

(** The fallback is reached on the empty frontier only: with the goal off a
    non-empty frontier the result never depends on the random draw. *)
Lemma think_fallback_unreachable (self : MazeAgent) (p : perception)
    (draw draw' : nat) :
  get_frontier_locs (env self) ≠ [] ->
  NoDup (get_frontier_locs (env self)) ->
  think ask self p draw = think ask self p draw'.
Proof.
  intros Hne Hnd.
  destruct (decide (goal self ∈ get_frontier_locs (env self))) as [Hgoal | Hgoal].
  - unfold think. simpl. by case_decide.
  - destruct (think_scored self p Hgoal Hne Hnd) as (_ & b & i & Hthink & _).
    by rewrite !Hthink.
Qed.

(** C6, as the code has it. When the goal is not on the frontier, a step
    on a clear tile ["."] leaves the current location and all its cardinal
    neighbours in the safe set and out of the set of possible pits, and has
    told the unit clause "no pit" for each of them. (When the goal is on
    the frontier the step returns before it looks at the tile.) *)
Theorem think_clear_tile (self : MazeAgent) (p : perception) (draw : nat) :
  perc_tile p = "." ->
  goal self ∉ get_frontier_locs (env self) ->
  clear_tile_recorded self p (fst (think ask self p draw)).
Proof.
  intros Htile Hgoal t Ht. rewrite think_state. cbv zeta.
  case_decide; [done|].
  set (frontier := get_frontier_locs (env self)).
  set (seen := observe p (assert_goal self)).
  destruct (classify_clear (perc_loc p) (assert_goal self))
    as (_ & Hk & _ & Hs & Hq). cbv zeta in Hk, Hs, Hq.
  read_attributes.
  assert (t ∈ safe_tiles seen) as Hsafe.
  { unfold seen, observe. read_attributes. rewrite Htile, Hs.
    apply elem_of_union_l, elem_of_list_to_set. exact Ht. }
  assert (t ∉ possible_pits seen) as Hposs.
  { unfold seen, observe. read_attributes. rewrite Htile, Hq.
    intros [_ Hno]%elem_of_difference. apply Hno, elem_of_list_to_set.
    exact Ht. }
  split; [|split].
  - apply queries_safe_tiles. by left.
  - intros [Hin _]%queries_possible_pits. done.
  - destruct (queries_frame ask frontier seen) as (_ & _ & _ & ->).
    unfold seen, observe. read_attributes. rewrite Htile, Hk.
    eexists. split; [by rewrite <- !app_assoc|].
    rewrite !told_app, told_tells, !elem_of_app, list_elem_of_fmap.
    naive_solver.
Qed.

(** C3, as the code has it. When both queries succeed for a frontier
    location, the step goes on without an error: the location ends in the
    pit set and in the safe set, out of the set of possible pits, it is
    scored as a confirmed pit (distance plus 20), and [think] returns a
    frontier location as usual. *)
Theorem think_contradiction_continues (self : MazeAgent) (p : perception)
    (draw : nat) (l : coord) :
  let frontier := get_frontier_locs (env self) in
  let asked := kb (observe p (assert_goal self)) in
  let final := fst (think ask self p draw) in
  goal self ∉ frontier ->
  NoDup frontier ->
  l ∈ frontier ->
  ask asked (P l true) = true ->
  ask asked (P l false) = true ->
  (exists b, snd (think ask self p draw) = Return (Some b) ∧ b ∈ frontier)
  ∧ l ∈ pit_tiles final
  ∧ l ∈ safe_tiles final
  ∧ (l ∉ possible_pits final)
  ∧ (l, get_manhattan_dist final l + 20)
    ∈ snd (fst (score_frontier ask frontier (observe p (assert_goal self)))).
Proof.
  intros frontier asked final Hgoal Hnd Hl Hpit Hsafe.
  assert (frontier ≠ []) as Hne by (intros E; rewrite E in Hl; by apply elem_of_nil in Hl).
  destruct (think_scored self p Hgoal Hne Hnd)
    as (Hscores & b & i & Hthink & Hi & _).
  fold frontier in Hscores, Hi.
  assert (queries ask frontier (observe p (assert_goal self)) = final) as Hq.
  { unfold final. by rewrite Hthink. }
  rewrite Hq in *.
  assert (l ∈ pit_tiles final) as Hin.
  { rewrite <- Hq. apply queries_pit_tiles. by right. }
  split; [|split; [done|split; [|split]]].
  - exists b. rewrite Hthink. split; [done|]. by eapply list_elem_of_lookup_2.
  - rewrite <- Hq. apply queries_safe_tiles. by right.
  - rewrite <- Hq. intros [_ Hno]%queries_possible_pits. apply Hno. by auto.
  - rewrite Hscores. apply list_elem_of_fmap. exists l. split; [|done].
    unfold score. by case_decide.
Qed.

(** C8, as the code has it. A tile label outside [".", "P", "1", "2", "3"]
    raises nothing. On a non-empty frontier [think] returns a frontier
    location; when the goal is not on the frontier the tile is handled as a
    warning tile without constraints: nothing but the goal clause is told,
    and the current location is recorded as safe. *)
Theorem think_unrecognized_tile (self : MazeAgent) (p : perception)
    (draw : nat) :
  let frontier := get_frontier_locs (env self) in
  let final := fst (think ask self p draw) in
  perc_tile p ∉ recognized_tiles ->
  frontier ≠ [] ->
  NoDup frontier ->
  (exists b, snd (think ask self p draw) = Return (Some b) ∧ b ∈ frontier)
  ∧ (goal self ∉ frontier ->
     told (kb final) = told (kb self) ++ [P (goal self) false]
     ∧ perc_loc p ∈ safe_tiles final
     ∧ perc_loc p ∉ possible_pits final).
Proof.
  intros frontier final Htile Hne Hnd. split.
  - destruct (decide (goal self ∈ frontier)) as [Hgoal | Hgoal].
    + exists (goal self). split; [|done]. unfold think. simpl. by case_decide.
    + destruct (think_scored self p Hgoal Hne Hnd)
        as (_ & b & i & Hthink & Hi & _).
      exists b. rewrite Hthink. split; [done|]. by eapply list_elem_of_lookup_2.
  - intros Hgoal. unfold final. rewrite think_state. cbv zeta.
    case_decide; [done|]. fold frontier.
    set (seen := observe p (assert_goal self)).
    assert (perc_tile p ≠ "P" ∧ perc_tile p ≠ "." ∧ perc_tile p ≠ "3"
            ∧ perc_tile p ≠ "2" ∧ perc_tile p ≠ "1")
      as (HP & Hclear & H3 & H2 & H1).
    { unfold recognized_tiles in Htile. set_solver. }
    destruct (classify_warning (perc_tile p) (perc_loc p) (assert_goal self)
                HP Hclear) as (_ & Hk & _ & Hs & Hq).
    cbv zeta in Hk, Hs, Hq.
    rewrite warning_tile_clause_other in Hk by done. read_attributes.
    split; [|split].
    + destruct (queries_frame ask frontier seen) as (_ & _ & _ & ->).
      unfold seen, observe. read_attributes. rewrite Hk.
      rewrite !told_app. simpl. by rewrite !app_nil_r.
    + apply queries_safe_tiles. left. unfold seen, observe. read_attributes.
      rewrite Hs. set_solver.
    + intros [Hin _]%queries_possible_pits. revert Hin.
      unfold seen, observe. read_attributes. rewrite Hq. set_solver.
Qed.

End Think.

(** ** The sensor encoder *)

(** Decides a closed proposition by evaluation. *)
Ltac evaluate := refine (bool_decide_unpack _ _); vm_compute; exact I.

(** The clauses the encoder tells, branch by branch. *)
Lemma generated_eq (warning_num : string) (l : coord) (self : MazeAgent) :
  generated warning_num l self
  = if decide (warning_num = "3") then
      (fun t => P t true) <$> get_cardinal_locs (env self) l 1
    else if decide (warning_num = "2") then
      match unresolved self l with
      | [a0; a1] => [P a0 true; P a1 true]
      | N => pair_clauses true N ++ [triple false N]
      end
    else if decide (warning_num = "1") then
      match unresolved self l with
      | [a0] => [P a0 true]
      | N => pair_clauses false N ++ [triple true N]
      end
    else [].
Proof.
  assert (forall (s : MazeAgent) (cs : list MazeClause),
            kb s = kb self ++ (Tell <$> cs) ->
            told (drop (length (kb self)) (kb (kb_simplify_self s))) = cs)
    as Hcut.
  { intros s cs Hs. read_attributes. rewrite Hs, <- app_assoc, drop_app_length.
    rewrite told_app, (told_tells (fun c => c)), list_fmap_id. simpl.
    by rewrite app_nil_r. }
  unfold generated, warning_tile_clause, unresolved. cbv zeta.
  set (adjacent_tiles := get_cardinal_locs (env self) l 1).
  set (adj_list := filter _ adjacent_tiles).
  repeat case_decide.
  - apply Hcut.
    destruct (all_pits_effect adjacent_tiles self) as (_ & -> & _).
    by rewrite <- list_fmap_compose.
  - destruct adj_list as [|a0 [|a1 [|a2 rest]]]; apply Hcut; read_attributes;
      try (by rewrite <- app_assoc);
      match goal with
      | |- context [tell_all ?cs ?s] =>
          destruct (tell_all_effect cs s) as (_ & -> & _)
      end; by rewrite fmap_app, <- app_assoc.
  - destruct adj_list as [|a0 [|a1 rest]]; apply Hcut; read_attributes;
      try done;
      match goal with
      | |- context [tell_all ?cs ?s] =>
          destruct (tell_all_effect cs s) as (_ & -> & _)
      end; by rewrite fmap_app, <- app_assoc.
  - apply Hcut. simpl. by rewrite app_nil_r.
Qed.

Lemma pair_clauses_mentions (b : bool) (N : list coord) (c : MazeClause)
    (t : coord) :
  c ∈ pair_clauses b N -> t ∈ mentions c -> t ∈ N.
Proof.
  induction N as [|a N IH]; simpl; [by intros ?%elem_of_nil|].
  rewrite elem_of_app. intros [Hc | Hc] Ht.
  - apply list_elem_of_In, in_map_iff in Hc as (a' & <- & Ha').
    apply list_elem_of_In in Ha'. unfold mentions in Ht. simpl in Ht.
    set_solver.
  - right. by apply IH.
Qed.

Lemma triple_mentions (b : bool) (N : list coord) (t : coord) :
  t ∈ mentions (triple b N) -> t ∈ N.
Proof.
  unfold mentions, triple. induction N as [|a N IH]; simpl; [done|].
  rewrite !elem_of_cons. intros [-> | Ht]; [by left | right; by apply IH].
Qed.

(** For the labels ["1"] and ["2"] every clause told is about unresolved
    neighbours only. *)
Lemma generated_mentions_unresolved (warning_num : string) (l : coord)
    (self : MazeAgent) (c : MazeClause) (t : coord) :
  warning_num ≠ "3" ->
  c ∈ generated warning_num l self -> t ∈ mentions c -> t ∈ unresolved self l.
Proof.
  intros H3. rewrite generated_eq. case_decide; [done|].
  assert (forall b, c ∈ pair_clauses b (unresolved self l)
                         ++ [triple (negb b) (unresolved self l)] ->
                    t ∈ mentions c -> t ∈ unresolved self l) as Hgeneral.
  { intros b [Hc | Hc]%elem_of_app Ht.
    - by eapply pair_clauses_mentions.
    - apply list_elem_of_singleton in Hc as ->. by eapply triple_mentions. }
  repeat case_decide; [| |by intros ?%elem_of_nil].
  - destruct (unresolved self l) as [|a0 [|a1 [|a2 rest]]];
      try apply (Hgeneral true).
    intros Hc Ht. rewrite !elem_of_cons in Hc.
    destruct Hc as [-> | [-> | Hc]]; [..|by apply elem_of_nil in Hc];
      apply list_elem_of_singleton in Ht as ->; simpl;
      rewrite !elem_of_cons; auto.
  - destruct (unresolved self l) as [|a0 [|a1 rest]];
      apply (Hgeneral false).
Qed.

(** Evaluates the clauses of a short neighbour list under every assignment
    of its locations. *)
Ltac try_all_assignments pit :=
  unfold satisfies_all, satisfies, holds, pits_among, triple, P; simpl;
  repeat match goal with
         | |- context [pit ?t] => destruct (pit t); simpl
         end;
  split; intros; (done || lia).

(** The label ["1"] is encoded as "exactly one pit" on up to four unresolved
    neighbours. *)
Lemma warning_one_exactly_one (l : coord) (self : MazeAgent)
    (pit : coord -> bool) :
  (length (unresolved self l) <= 4)%nat ->
  satisfies_all pit (generated "1" l self) = true
  <-> pits_among pit (unresolved self l) = 1%nat.
Proof.
  intros Hlen. rewrite generated_eq. simpl.
  destruct (unresolved self l) as [|a0 [|a1 [|a2 [|a3 [|a4 rest]]]]];
    [.. | simpl in Hlen; lia]; try_all_assignments pit.
Qed.

(** The label ["2"] is encoded as "exactly two pits" on two or three
    unresolved neighbours. *)
Lemma warning_two_exactly_two (l : coord) (self : MazeAgent)
    (pit : coord -> bool) :
  (2 <= length (unresolved self l) <= 3)%nat ->
  satisfies_all pit (generated "2" l self) = true
  <-> pits_among pit (unresolved self l) = 2%nat.
Proof.
  intros Hlen. rewrite generated_eq. simpl.
  destruct (unresolved self l) as [|a0 [|a1 [|a2 [|a3 rest]]]];
    simpl in Hlen; try lia; try_all_assignments pit.
Qed.

(** With the labels ["1"] and ["2"], as many unresolved neighbours as the
    label counts get a unit clause each, and nothing else is told. *)
Lemma warning_degenerate_units (l : coord) (self : MazeAgent) :
  (length (unresolved self l) = 1%nat ->
   generated "1" l self = (fun t => P t true) <$> unresolved self l)
  ∧ (length (unresolved self l) = 2%nat ->
     generated "2" l self = (fun t => P t true) <$> unresolved self l).
Proof.
  rewrite !generated_eq. simpl.
  split; intros Hlen;
    by destruct (unresolved self l) as [|a0 [|a1 [|a2 rest]]].
Qed.

(** C1. The encoder does not always say "exactly k pits among the unresolved
    neighbours". After the agent fell into the pit at (3,2) and went on to
    (4,2), none of the four neighbours of (4,2) is known safe, and the
    clauses told for the label ["2"] hold exactly under the assignments with
    three pits among them. And for the label ["3"] at (2,2), entered from the
    start (1,2), a clause is told about (1,2), which is not an unresolved
    neighbour. *)
Theorem warning_tile_clause_not_exactly_k :
  let self := after_pit ask_nothing in
  let self0 := fresh_agent first_frontier in
  unresolved self (4, 2) = [(3, 2); (5, 2); (4, 1); (4, 3)]
  ∧ (forall pit : coord -> bool,
       satisfies_all pit (generated "2" (4, 2) self) = true
       <-> pits_among pit (unresolved self (4, 2)) = 3%nat)
  ∧ P (1, 2) true ∈ generated "3" (2, 2) self0
  ∧ (1, 2) ∈ mentions (P (1, 2) true)
  ∧ (1, 2) ∉ unresolved self0 (2, 2).
Proof.
  intros self self0.
  assert (unresolved self (4, 2) = [(3, 2); (5, 2); (4, 1); (4, 3)]) as HN
    by (vm_compute; reflexivity).
  split; [exact HN|]. split; [|repeat split; evaluate].
  intros pit. rewrite generated_eq, HN. simpl.
  try_all_assignments pit.
Qed.

(** C2. The label ["3"] does not stop at the unresolved neighbours. At
    (2,2), entered from the start (1,2), exactly three neighbours are
    unresolved, and the encoder tells a unit pit clause for the known-safe
    start as well and puts it into the pit set. *)
Theorem warning_three_tells_known_safe_tile :
  let self := fresh_agent first_frontier in
  unresolved self (2, 2) = [(3, 2); (2, 1); (2, 3)]
  ∧ generated "3" (2, 2) self
    = [P (1, 2) true; P (3, 2) true; P (2, 1) true; P (2, 3) true]
  ∧ (1, 2) ∈ safe_tiles self
  ∧ (1, 2) ∈ pit_tiles (warning_tile_clause "3" (2, 2) self).
Proof.
  intros self. repeat split; try (vm_compute; reflexivity).
Qed.

(** ** The statements at work on the example world *)

(** The goal (5,5) on the frontier is chosen although (4,4) is there too. *)
Lemma think_goal_shortcut_witness :
  snd (think ask_nothing (fresh_agent [(4, 4); (5, 5)])
             {| perc_loc := (4, 5); perc_tile := "1" |} 0)
  = Return (Some (5, 5)).
Proof.
  apply (think_goal_shortcut ask_nothing (fresh_agent [(4, 4); (5, 5)])
           {| perc_loc := (4, 5); perc_tile := "1" |} 0).
  evaluate.
Defined.

(** At the start all four neighbours are known safe; (2,2) and (1,3) are
    nearest to the goal and (2,2) comes first. *)
Lemma think_selects_first_minimum_witness :
  let self := fresh_agent first_frontier in
  let p := {| perc_loc := (1, 2); perc_tile := "." |} in
  let final := fst (think ask_nothing self p 0) in
  snd (fst (score_frontier ask_nothing first_frontier
              (observe p (assert_goal self))))
  = (fun l => (l, frontier_score final l)) <$> first_frontier
  ∧ exists b (i : nat),
      (forall draw', snd (think ask_nothing self p draw') = Return (Some b))
      ∧ first_frontier !! i = Some b
      ∧ (forall l, l ∈ first_frontier ->
                   frontier_score final b <= frontier_score final l)
      ∧ (forall (j : nat) l,
           (j < i)%nat -> first_frontier !! j = Some l ->
           frontier_score final b < frontier_score final l).
Proof.
  intros self p.
  apply (think_selects_first_minimum ask_nothing self p 0).
  - apply MazeAgent_init_consistent.
  - evaluate.
  - discriminate.
  - evaluate.
Defined.

Lemma think_empty_frontier_raises_witness :
  snd (think ask_nothing (fresh_agent [])
             {| perc_loc := (1, 2); perc_tile := "." |} 0)
  = Raise IndexError.
Proof.
  apply (think_empty_frontier_raises ask_nothing (fresh_agent [])
           {| perc_loc := (1, 2); perc_tile := "." |} 0).
  reflexivity.
Defined.

(** C6 as stated fails: with the goal on the frontier the step on a clear
    tile returns before the tile is looked at, and the current location
    (4,5) is not recorded as safe. *)
Lemma think_clear_tile_skipped_at_goal :
  ¬ (forall (ask : MazeKnowledgeBase -> MazeClause -> bool) (self : MazeAgent)
            (p : perception) (draw : nat),
       perc_tile p = "." ->
       clear_tile_recorded self p (fst (think ask self p draw))).
Proof.
  intros Hclaim.
  destruct (Hclaim ask_nothing (fresh_agent [(4, 4); (5, 5)])
              {| perc_loc := (4, 5); perc_tile := "." |} 0%nat eq_refl (4, 5))
    as (Hsafe & _).
  - simpl. left.
  - revert Hsafe. evaluate.
Qed.

Lemma think_clear_tile_witness :
  clear_tile_recorded (fresh_agent first_frontier)
    {| perc_loc := (1, 2); perc_tile := "." |}
    (fst (think ask_nothing (fresh_agent first_frontier)
                {| perc_loc := (1, 2); perc_tile := "." |} 0)).
Proof.
  apply (think_clear_tile ask_nothing (fresh_agent first_frontier)
           {| perc_loc := (1, 2); perc_tile := "." |} 0).
  - reflexivity.
  - evaluate.
Defined.

(** C3 as stated fails: a knowledge base that entails both "pit" and "no
    pit" for (2,2) raises nothing; [think] returns (2,2). *)
Lemma think_contradiction_not_raised :
  ¬ (forall (ask : MazeKnowledgeBase -> MazeClause -> bool) (self : MazeAgent)
            (p : perception) (draw : nat) (l : coord),
       let frontier := get_frontier_locs (env self) in
       let asked := kb (observe p (assert_goal self)) in
       goal self ∉ frontier ->
       l ∈ frontier ->
       ask asked (P l true) = true ->
       ask asked (P l false) = true ->
       exists e, snd (think ask self p draw) = Raise e).
Proof.
  intros Hclaim.
  destruct (Hclaim ask_everything (fresh_agent first_frontier)
              {| perc_loc := (1, 2); perc_tile := "." |} 0%nat (2, 2))
    as [e He]; try reflexivity; try evaluate.
  vm_compute in He. discriminate He.
Qed.

Lemma think_contradiction_continues_witness :
  let self := fresh_agent first_frontier in
  let p := {| perc_loc := (1, 2); perc_tile := "." |} in
  let final := fst (think ask_everything self p 0) in
  (exists b, snd (think ask_everything self p 0) = Return (Some b)
             ∧ b ∈ first_frontier)
  ∧ (2, 2) ∈ pit_tiles final
  ∧ (2, 2) ∈ safe_tiles final
  ∧ ((2, 2) ∉ possible_pits final)
  ∧ ((2, 2), get_manhattan_dist final (2, 2) + 20)
    ∈ snd (fst (score_frontier ask_everything first_frontier
                  (observe p (assert_goal self)))).
Proof.
  intros self p.
  apply (think_contradiction_continues ask_everything self p 0 (2, 2));
    try reflexivity; evaluate.
Defined.

(** C8 as stated fails: the tile label ["X"] raises nothing; [think]
    returns (2,2). *)
Lemma think_unrecognized_tile_not_raised :
  ¬ (forall (ask : MazeKnowledgeBase -> MazeClause -> bool) (self : MazeAgent)
            (p : perception) (draw : nat),
       perc_tile p ∉ recognized_tiles ->
       exists e, snd (think ask self p draw) = Raise e).
Proof.
  intros Hclaim.
  destruct (Hclaim ask_nothing (fresh_agent first_frontier)
              {| perc_loc := (1, 2); perc_tile := "X" |} 0%nat)
    as [e He]; [evaluate|].
  vm_compute in He. discriminate He.
Qed.

Lemma think_unrecognized_tile_witness :
  let self := fresh_agent first_frontier in
  let p := {| perc_loc := (1, 2); perc_tile := "X" |} in
  let final := fst (think ask_nothing self p 0) in
  (exists b, snd (think ask_nothing self p 0) = Return (Some b)
             ∧ b ∈ first_frontier)
  ∧ (goal self ∉ first_frontier ->
     told (kb final) = told (kb self) ++ [P (goal self) false]
     ∧ perc_loc p ∈ safe_tiles final
     ∧ perc_loc p ∉ possible_pits final).
Proof.
  intros self p.
  apply (think_unrecognized_tile ask_nothing self p 0).
  - evaluate.
  - discriminate.
  - evaluate.
Defined.

(** After the label ["3"] at (2,2) the start (1,2) is in the safe set and in
    the pit set, and the knowledge base here entails everything: the safe
    set decides. *)
Lemma is_safe_tile_precedence_witness :
  is_safe_tile ask_everything
    (warning_tile_clause "3" (2, 2) (fresh_agent first_frontier)) (1, 2)
  = Some true.
Proof.
  apply (proj1 (is_safe_tile_precedence ask_everything
                  (warning_tile_clause "3" (2, 2) (fresh_agent first_frontier))
                  (1, 2))).
  evaluate.
Defined.

(** * Further properties of the encoder and of the step *)

(** ** Counting the pits an encoding allows *)

Lemma pits_among_cons (pit : coord -> bool) (a : coord) (N : list coord) :
  pits_among pit (a :: N)
  = ((if pit a then 1 else 0) + pits_among pit N)%nat.
Proof. unfold pits_among. simpl. by destruct (pit a). Qed.

Lemma pits_among_le (pit : coord -> bool) (N : list coord) :
  (pits_among pit N <= length N)%nat.
Proof.
  induction N as [|a N IH]; [done|]. rewrite pits_among_cons. simpl.
  destruct (pit a); lia.
Qed.

(** The locations of [N] whose assignment is [b]. *)
Lemma agreeing_count (pit : coord -> bool) (b : bool) (N : list coord) :
  length (List.filter (fun t => Bool.eqb (pit t) b) N)
  = if b then pits_among pit N else (length N - pits_among pit N)%nat.
Proof.
  induction N as [|a N IH]; [by destruct b|].
  rewrite pits_among_cons. pose proof (pits_among_le pit N) as Hle.
  simpl. destruct b, (pit a); simpl; rewrite IH; lia.
Qed.

Lemma satisfies_all_app (pit : coord -> bool) (cs1 cs2 : list MazeClause) :
  satisfies_all pit (cs1 ++ cs2)
  = (satisfies_all pit cs1 && satisfies_all pit cs2)%bool.
Proof. unfold satisfies_all. apply forallb_app. Qed.

(** [triple b N] holds when some location of [N] is assigned [b]. *)
Lemma satisfies_triple (pit : coord -> bool) (b : bool) (N : list coord) :
  satisfies pit (triple b N) = true
  <-> (1 <= length (List.filter (fun t => Bool.eqb (pit t) b) N))%nat.
Proof.
  unfold satisfies, triple, holds.
  induction N as [|a N IH]; simpl; [split; [done | lia]|].
  destruct (Bool.eqb (pit a) b); simpl; [split; [lia | done] | exact IH].
Qed.

(** The clauses pairing [a] with every location of [N] hold when [a] is
    assigned [b] or all of [N] is. *)
Lemma satisfies_head_pairs (pit : coord -> bool) (b : bool) (a : coord)
    (N : list coord) :
  satisfies_all pit (map (fun tj => [(("P", a), b); (("P", tj), b)]) N) = true
  <-> pit a = b
      ∨ length (List.filter (fun t => Bool.eqb (pit t) b) N) = length N.
Proof.
  unfold satisfies_all, satisfies, holds.
  induction N as [|t N IH]; simpl; [split; auto|].
  pose proof (filter_length_le (fun t => Bool.eqb (pit t) b) N) as Hle.
  rewrite andb_true_iff, IH. clear IH.
  destruct (pit a), (pit t), b; simpl; split; intros H;
    try (by left); try (right; lia); try (split; [done|]);
    try (destruct H as [_ [H | H]] || destruct H as [H | H]);
    try done; try (right; lia); try lia.
Qed.

(** [pair_clauses b N] holds when at most one location of [N] is not
    assigned [b]. *)
Lemma satisfies_pair_clauses (pit : coord -> bool) (b : bool) (N : list coord) :
  satisfies_all pit (pair_clauses b N) = true
  <-> (length N
       <= length (List.filter (fun t => Bool.eqb (pit t) b) N) + 1)%nat.
Proof.
  induction N as [|a N IH]; simpl; [split; [lia | done]|].
  pose proof (filter_length_le (fun t => Bool.eqb (pit t) b) N) as Hle.
  rewrite satisfies_all_app, andb_true_iff, satisfies_head_pairs, IH.
  destruct (Bool.eqb (pit a) b) eqn:Ha; simpl.
  - apply Bool.eqb_prop in Ha. split; [lia|]. intros H. split; [by left | lia].
  - apply Bool.eqb_false_iff in Ha. split.
    + intros [[H | H] _]; [done | lia].
    + intros H. split; [right|]; lia.
Qed.

(** ** What each label is encoded as *)

(** X1. For the label ["1"] the clauses told hold exactly under the
    assignments with one pit among the unresolved neighbours, however many
    unresolved neighbours there are. *)
Theorem warning_one_any_neighbourhood (l : coord) (self : MazeAgent)
    (pit : coord -> bool) :
  satisfies_all pit (generated "1" l self) = true
  <-> pits_among pit (unresolved self l) = 1%nat.
Proof.
  rewrite generated_eq. simpl.
  set (N := unresolved self l).
  assert (satisfies_all pit (pair_clauses false N ++ [triple true N]) = true
          <-> pits_among pit N = 1%nat) as Hgeneral.
  { rewrite satisfies_all_app, andb_true_iff, satisfies_pair_clauses.
    unfold satisfies_all at 1. simpl. rewrite andb_true_r, satisfies_triple.
    rewrite !agreeing_count. pose proof (pits_among_le pit N). lia. }
  destruct N as [|a0 [|a1 rest]]; exact Hgeneral.
Qed.

(** X2. For the label ["2"] the clauses told ask for two pits when exactly
    two neighbours are unresolved, and otherwise for all unresolved
    neighbours but one to be pits: "exactly two" only on two or three
    unresolved neighbours. *)
Theorem warning_two_any_neighbourhood (l : coord) (self : MazeAgent)
    (pit : coord -> bool) :
  satisfies_all pit (generated "2" l self) = true
  <-> if decide (length (unresolved self l) = 2%nat)
      then pits_among pit (unresolved self l) = 2%nat
      else (pits_among pit (unresolved self l) + 1)%nat
           = length (unresolved self l).
Proof.
  rewrite generated_eq. simpl.
  set (N := unresolved self l).
  assert (satisfies_all pit (pair_clauses true N ++ [triple false N]) = true
          <-> (pits_among pit N + 1)%nat = length N) as Hgeneral.
  { rewrite satisfies_all_app, andb_true_iff, satisfies_pair_clauses.
    unfold satisfies_all at 1. simpl. rewrite andb_true_r, satisfies_triple.
    rewrite !agreeing_count. pose proof (pits_among_le pit N). lia. }
  destruct N as [|a0 [|a1 [|a2 rest]]]; try exact Hgeneral.
  unfold satisfies_all, satisfies, holds, pits_among, P. simpl.
  destruct (pit a0), (pit a1); simpl; split; (done || lia).
Qed.

(** X3. For the label ["3"] the clauses told hold exactly when every
    cardinal neighbour is a pit, the known-safe ones included, and every
    cardinal neighbour is put into the pit set. *)
Theorem warning_three_all_neighbours (l : coord) (self : MazeAgent)
    (pit : coord -> bool) :
  (satisfies_all pit (generated "3" l self) = true
   <-> forall t, t ∈ get_cardinal_locs (env self) l 1 -> pit t = true)
  ∧ pit_tiles (warning_tile_clause "3" l self)
    = list_to_set (get_cardinal_locs (env self) l 1) ∪ pit_tiles self.
Proof.
  split.
  - rewrite generated_eq. simpl.
    induction (get_cardinal_locs (env self) l 1) as [|a N IH].
    + split; [by intros _ t ?%elem_of_nil | done].
    + rewrite fmap_cons. unfold satisfies_all in *.
      cbn [forallb satisfies existsb P holds fst snd].
      rewrite andb_true_iff, IH, orb_false_r. unfold holds. simpl.
      rewrite Bool.eqb_true_iff.
      split.
      * intros [Ha HN] t [-> | Ht]%elem_of_cons; [done | by apply HN].
      * intros H. split; [apply H; left | intros t Ht; apply H; by right].
  - unfold warning_tile_clause. cbv zeta. simpl. read_attributes.
    by destruct (all_pits_effect (get_cardinal_locs (env self) l 1) self)
      as (_ & _ & -> & _).
Qed.

Lemma pair_clauses_length (b : bool) (N : list coord) :
  (2 * length (pair_clauses b N) = length N * (length N - 1))%nat.
Proof.
  induction N as [|a N IH]; [done|]. simpl pair_clauses.
  rewrite length_app, length_map. simpl length.
  rewrite Nat.sub_succ, Nat.sub_0_r.
  unfold MazeClause, literal, prop in *.
  set (x := length (pair_clauses b N)) in *.
  set (n := length N) in *. clearbody x n. destruct n as [|m]; [lia|].
  rewrite Nat.sub_succ, Nat.sub_0_r in IH. nia.
Qed.

(** X4. For the labels ["1"] and ["2"] the encoder tells n(n-1)/2 + 1
    clauses on n unresolved neighbours, the degenerate cases included. *)
Theorem warning_clause_count (warning_num : string) (l : coord)
    (self : MazeAgent) :
  warning_num = "1" ∨ warning_num = "2" ->
  (2 * length (generated warning_num l self)
   = length (unresolved self l) * (length (unresolved self l) - 1) + 2)%nat.
Proof.
  intros Hlabel. rewrite generated_eq.
  set (N := unresolved self l).
  assert (forall b b', (2 * length (pair_clauses b N ++ [triple b' N])
                        = length N * (length N - 1) + 2)%nat) as Hgeneral.
  { intros b b'. rewrite length_app. simpl length.
    pose proof (pair_clauses_length b N). lia. }
  destruct Hlabel as [-> | ->];
    rewrite ?decide_False by done; rewrite decide_True by done.
  - destruct N as [|a0 [|a1 rest]]; try apply Hgeneral. done.
  - destruct N as [|a0 [|a1 [|a2 rest]]]; try apply Hgeneral. done.
Qed.

(** X5. With no unresolved neighbour the labels ["1"] and ["2"] tell one
    clause, the empty clause, which no assignment satisfies. *)
Theorem warning_without_unresolved (warning_num : string) (l : coord)
    (self : MazeAgent) (pit : coord -> bool) :
  warning_num = "1" ∨ warning_num = "2" ->
  unresolved self l = [] ->
  generated warning_num l self = [[]]
  ∧ satisfies_all pit (generated warning_num l self) = false.
Proof.
  intros Hlabel Hnone. rewrite generated_eq, Hnone.
  by destruct Hlabel as [-> | ->].
Qed.

(** The calls the encoder makes on the knowledge base, and the bound on
    what it adds to the pit set. *)
Lemma warning_tile_clause_calls (warning_num : string) (l : coord)
    (self : MazeAgent) :
  let self' := warning_tile_clause warning_num l self in
  exists cs, kb self' = kb self ++ (Tell <$> cs)
                        ++ [SimplifySelf (pit_tiles self') (safe_tiles self')]
             ∧ pit_tiles self'
               ⊆ pit_tiles self
                 ∪ list_to_set (get_cardinal_locs (env self) l 1).
Proof.
  intros self'. unfold self', warning_tile_clause. cbv zeta.
  set (adjacent_tiles := get_cardinal_locs (env self) l 1).
  remember (filter (fun tile => tile ∉ safe_tiles self) adjacent_tiles)
    as adj_list eqn:Hadj.
  assert (forall t, t ∈ adj_list -> t ∈ adjacent_tiles) as Hsub.
  { intros t. rewrite Hadj. by intros [_ ?]%list_elem_of_filter. }
  read_attributes. repeat case_decide.
  - exists ((fun t => P t true) <$> adjacent_tiles).
    destruct (all_pits_effect adjacent_tiles self) as (_ & -> & -> & -> & _).
    rewrite <- list_fmap_compose, <- app_assoc. split; [done | set_solver].
  - destruct adj_list as [|a0 [|a1 [|a2 rest]]]; read_attributes.
    3: { exists [P a0 true; P a1 true]. rewrite <- !app_assoc.
         split; [done|]. pose proof (Hsub a0). pose proof (Hsub a1).
         set_solver. }
    all: match goal with
         | |- context [kb (tell_all ?cs ?s) ++ [Tell ?c]] =>
             exists (cs ++ [c]);
             destruct (tell_all_effect cs s) as (_ & -> & -> & -> & _)
         end;
         (split; [by rewrite fmap_app, <- !app_assoc | set_solver]).
  - destruct adj_list as [|a0 [|a1 rest]]; read_attributes.
    2: { exists [P a0 true]. rewrite <- !app_assoc.
         split; [done|]. pose proof (Hsub a0). set_solver. }
    all: match goal with
         | |- context [kb (tell_all ?cs ?s) ++ [Tell ?c]] =>
             exists (cs ++ [c]);
             destruct (tell_all_effect cs s) as (_ & -> & -> & -> & _)
         end;
         (split; [by rewrite fmap_app, <- !app_assoc | set_solver]).
  - exists []. split; [done | set_solver].
Qed.

(** X6. The encoder never touches the safe set or the set of possible pits.
    It adds to the pit set cardinal neighbours only, tells its clauses and
    always ends by simplifying the knowledge base with the pit set and the
    safe set as they then are. *)
Theorem warning_tile_clause_effect (warning_num : string) (l : coord)
    (self : MazeAgent) :
  let self' := warning_tile_clause warning_num l self in
  same_world self self'
  ∧ safe_tiles self' = safe_tiles self
  ∧ possible_pits self' = possible_pits self
  ∧ pit_tiles self ⊆ pit_tiles self'
  ∧ pit_tiles self'
    ⊆ pit_tiles self ∪ list_to_set (get_cardinal_locs (env self) l 1)
  ∧ kb self'
    = kb self ++ (Tell <$> generated warning_num l self)
      ++ [SimplifySelf (pit_tiles self') (safe_tiles self')].
Proof.
  intros self'.
  destruct (warning_tile_clause_frame warning_num l self)
    as (Hw & Hs & Hq & Hp). fold self' in Hw, Hs, Hq, Hp.
  do 4 (split; [done|]).
  destruct (warning_tile_clause_calls warning_num l self)
    as (cs & Hk & Hbound). fold self' in Hk, Hbound.
  split; [done|]. rewrite Hk. do 2 f_equal.
  unfold generated. fold self'. rewrite Hk, drop_app_length.
  rewrite told_app, (told_tells (fun c => c)), list_fmap_id. simpl.
  by rewrite app_nil_r.
Qed.

(** ** The dictionary of scores, whatever the frontier *)

Lemma dict_set_entries (d : list (coord * Z)) (k : coord) (v : Z)
    (kv : coord * Z) :
  kv ∈ dict_set d k v -> kv ∈ d ∨ kv = (k, v).
Proof.
  induction d as [|[k' v'] d IH]; simpl.
  - intros ->%list_elem_of_singleton. by right.
  - case_decide.
    + intros [-> | Hin]%elem_of_cons; [by right | left; by right].
    + intros [-> | Hin]%elem_of_cons; [left; by left|].
      destruct (IH Hin) as [? | ?]; [left; by right | by right].
Qed.

Lemma dict_set_nonempty (d : list (coord * Z)) (k : coord) (v : Z) :
  dict_set d k v ≠ [].
Proof. destruct d as [|[k' v'] d]; simpl; [done|]. by case_decide. Qed.

Lemma fold_dict_set_entries (f : coord -> Z) (frontier : list coord)
    (d : list (coord * Z)) (kv : coord * Z) :
  kv ∈ fold_left (fun d l => dict_set d l (f l)) frontier d ->
  kv ∈ d ∨ (fst kv ∈ frontier ∧ snd kv = f (fst kv)).
Proof.
  revert d. induction frontier as [|l frontier IH]; intros d; simpl.
  - by left.
  - intros [Hin | [Hin Hv]]%IH.
    + apply dict_set_entries in Hin as [? | ->]; [by left|].
      right. split; [by left | done].
    + right. split; [by right | done].
Qed.

Lemma fold_dict_set_nonempty (f : coord -> Z) (frontier : list coord)
    (d : list (coord * Z)) :
  frontier ≠ [] ∨ d ≠ [] ->
  fold_left (fun d l => dict_set d l (f l)) frontier d ≠ [].
Proof.
  revert d. induction frontier as [|l frontier IH]; intros d; simpl.
  - by intros [? | ?].
  - intros _. apply IH. right. apply dict_set_nonempty.
Qed.

Lemma dict_set_keeps (d : list (coord * Z)) (k : coord) (v : Z)
    (kv : coord * Z) :
  kv ∈ d -> fst kv ≠ k ∨ snd kv = v -> kv ∈ dict_set d k v.
Proof.
  destruct kv as [k0 v0]. simpl.
  induction d as [|[k' v'] d IH]; simpl; [by intros ?%elem_of_nil|].
  intros [Heq | Hin]%elem_of_cons Hcase.
  - inversion Heq; subst. case_decide as Hk; [|by left].
    destruct Hcase as [? | ->]; [done|]. rewrite Hk. by left.
  - case_decide; [by right|]. right. by apply IH.
Qed.

Lemma dict_set_has (d : list (coord * Z)) (k : coord) (v : Z) :
  (k, v) ∈ dict_set d k v.
Proof.
  induction d as [|[k' v'] d IH]; simpl; [by left|].
  case_decide; [by left | by right].
Qed.

(** Every location of the frontier has its entry in the dictionary. *)
Lemma fold_dict_set_has (f : coord -> Z) (frontier : list coord)
    (d : list (coord * Z)) (l : coord) :
  l ∈ frontier ∨ (l, f l) ∈ d ->
  (l, f l) ∈ fold_left (fun d l => dict_set d l (f l)) frontier d.
Proof.
  revert d. induction frontier as [|l' frontier IH]; intros d; simpl.
  - intros [Hl | Hl]; [by apply elem_of_nil in Hl | done].
  - intros [[-> | Hl]%elem_of_cons | Hl]; apply IH.
    + right. apply dict_set_has.
    + by left.
    + right. apply dict_set_keeps; [done|]. simpl.
      destruct (decide (l = l')) as [-> | ?]; [by right | by left].
Qed.

Section Step.

Variable ask : MazeKnowledgeBase -> MazeClause -> bool.

(** With the goal off a non-empty frontier the step returns a frontier
    location and never reaches the random choice. *)
Lemma think_returns (self : MazeAgent) (p : perception) :
  let frontier := get_frontier_locs (env self) in
  let final := queries ask frontier (observe p (assert_goal self)) in
  goal self ∉ frontier ->
  frontier ≠ [] ->
  exists b, b ∈ frontier
            ∧ (forall l, l ∈ frontier -> score final b <= score final l)
            ∧ forall draw, think ask self p draw = (final, Return (Some b)).
Proof.
  intros frontier final Hgoal Hne.
  assert (goal final = goal self) as Hg.
  { destruct (queries_frame ask frontier (observe p (assert_goal self)))
      as (_ & Hgq & _).
    destruct (classify_same_world (perc_tile p) (perc_loc p) (assert_goal self))
      as (_ & Hgc & _).
    unfold final. rewrite Hgq. unfold observe.
    read_attributes. by rewrite Hgc. }
  set (scores := fold_left (fun d l => dict_set d l (score final l)) frontier []).
  destruct (best_first_minimum scores) as (v & b & i & Hbest & Hi & Hall & _).
  { apply fold_dict_set_nonempty. by left. }
  apply list_elem_of_lookup_2, fold_dict_set_entries in Hi
    as [Hi | [Hb Hv]]; [by apply elem_of_nil in Hi|].
  simpl in Hb, Hv. exists b. split; [done|]. split.
  { intros l Hl. rewrite <- Hv.
    apply (Hall (l, score final l)), fold_dict_set_has. by left. }
  intros draw.
  assert (1 <= v) as Hpos.
  { rewrite Hv. etrans; [|apply score_ge_dist]. apply get_manhattan_dist_pos.
    rewrite Hg. intros ->. done. }
  unfold think. simpl. fold frontier. case_decide; [done|].
  rewrite score_frontier_eq. fold final. fold scores. rewrite Hbest.
  replace (match frontier with [] => false | _ => true end) with true
    by (by destruct frontier).
  simpl. by rewrite bool_decide_eq_false_2 by lia.
Qed.

(** X7. On a non-empty frontier [think] raises nothing and returns a
    location of the frontier, the same whatever the random draw: the random
    choice is never reached. *)
Theorem think_returns_frontier_location (self : MazeAgent) (p : perception) :
  get_frontier_locs (env self) ≠ [] ->
  exists b, b ∈ get_frontier_locs (env self)
            ∧ forall draw, snd (think ask self p draw) = Return (Some b).
Proof.
  intros Hne.
  destruct (decide (goal self ∈ get_frontier_locs (env self))) as [Hgoal | Hgoal].
  - exists (goal self). split; [done|]. intros draw.
    unfold think. simpl. by case_decide.
  - destruct (think_returns self p Hgoal Hne) as (b & Hb & _ & Hthink).
    exists b. split; [done|]. intros draw. by rewrite Hthink.
Qed.

(** The classification only adds to the safe set, to the pit set and to the
    knowledge base. *)
Lemma classify_grows (tile_type : string) (location : coord)
    (self : MazeAgent) :
  let self' := classify tile_type location self in
  safe_tiles self ⊆ safe_tiles self'
  ∧ pit_tiles self ⊆ pit_tiles self'
  ∧ exists new, kb self' = kb self ++ new.
Proof.
  intros self'. unfold self'.
  destruct (decide (tile_type = "P")) as [-> | HP].
  { destruct (classify_pit location self) as (_ & -> & -> & -> & _).
    split; [done|]. split; [set_solver | by eexists]. }
  destruct (decide (tile_type = ".")) as [-> | Hclear].
  { destruct (classify_clear location self) as (_ & -> & -> & -> & _).
    split; [set_solver|]. split; [done | by eexists]. }
  destruct (classify_warning tile_type location self HP Hclear)
    as (_ & -> & -> & -> & _).
  destruct (warning_tile_clause_frame tile_type location self)
    as (_ & _ & _ & Hp).
  destruct (warning_tile_clause_calls tile_type location self)
    as (cs & -> & _).
  split; [set_solver|]. split; [done | by eexists].
Qed.

(** The knowledge base the frontier queries are put to is the one the step
    leaves behind. *)
Lemma think_kb (self : MazeAgent) (p : perception) (draw : nat) :
  goal self ∉ get_frontier_locs (env self) ->
  kb (fst (think ask self p draw)) = kb (observe p (assert_goal self)).
Proof.
  intros Hgoal. rewrite think_state. cbv zeta. case_decide; [done|].
  by destruct (queries_frame ask (get_frontier_locs (env self))
                 (observe p (assert_goal self))) as (_ & _ & _ & ->).
Qed.

(** X8. A step only adds knowledge: the world stays, the safe set and the
    pit set only grow, the goal is in the safe set afterwards, and the
    knowledge base is only called further, first of all with the unit
    clause "no pit at the goal". *)
Theorem think_grows_knowledge (self : MazeAgent) (p : perception)
    (draw : nat) :
  let final := fst (think ask self p draw) in
  same_world self final
  ∧ safe_tiles self ⊆ safe_tiles final
  ∧ pit_tiles self ⊆ pit_tiles final
  ∧ goal self ∈ safe_tiles final
  ∧ exists new, kb final = kb self ++ Tell (P (goal self) false) :: new.
Proof.
  intros final. unfold final. rewrite think_state. cbv zeta.
  case_decide as Hgoal.
  { unfold same_world. read_attributes.
    repeat split; [set_solver.. | by exists []]. }
  set (frontier := get_frontier_locs (env self)).
  destruct (queries_frame ask frontier (observe p (assert_goal self)))
    as (He & Hg & Hst & Hk).
  destruct (classify_same_world (perc_tile p) (perc_loc p) (assert_goal self))
    as (He' & Hg' & Hst').
  destruct (classify_grows (perc_tile p) (perc_loc p) (assert_goal self))
    as (Hs & Hp & new & Hnew).
  cbv zeta in Hs, Hp, Hnew.
  assert (forall t, t ∈ {[goal self]} ∪ safe_tiles self ->
                    t ∈ safe_tiles (queries ask frontier
                                      (observe p (assert_goal self))))
    as Hsafe.
  { intros t Ht. apply queries_safe_tiles. left. by apply Hs. }
  assert (forall t, t ∈ pit_tiles self ->
                    t ∈ pit_tiles (queries ask frontier
                                     (observe p (assert_goal self))))
    as Hpit.
  { intros t Ht. apply queries_pit_tiles. left. by apply Hp. }
  unfold same_world. rewrite He, Hg, Hst, Hk. unfold observe.
  read_attributes. rewrite He', Hg', Hst', Hnew.
  split; [done|]. split; [|split; [|split]].
  - intros t Ht. apply Hsafe. set_solver.
  - exact Hpit.
  - apply Hsafe. set_solver.
  - eexists. by rewrite <- !app_assoc.
Qed.

(** X9. A step keeps the agent consistent: the goal stays known safe and no
    location is at once known safe and a possible pit. *)
Theorem think_keeps_consistent (self : MazeAgent) (p : perception)
    (draw : nat) :
  consistent self -> consistent (fst (think ask self p draw)).
Proof. apply think_consistent. Qed.

(** X10. A step on a pit tile, the goal not being on the frontier, records
    the current location as a pit and no longer as a possible pit, tells the
    goal clause and the unit clause "pit here" and nothing else, and marks
    no location safe but the goal and what the frontier queries find safe. *)
Theorem think_pit_tile (self : MazeAgent) (p : perception) (draw : nat) :
  let frontier := get_frontier_locs (env self) in
  let final := fst (think ask self p draw) in
  perc_tile p = "P" ->
  goal self ∉ frontier ->
  perc_loc p ∈ pit_tiles final
  ∧ (perc_loc p ∉ possible_pits final)
  ∧ told (kb final) = told (kb self) ++ [P (goal self) false; P (perc_loc p) true]
  ∧ forall t, t ∈ safe_tiles final
              <-> t = goal self ∨ t ∈ safe_tiles self
                  ∨ (t ∈ frontier ∧ ask (kb final) (P t false) = true).
Proof.
  intros frontier final Htile Hgoal. unfold final.
  rewrite think_kb by done. rewrite think_state. cbv zeta.
  case_decide; [done|]. fold frontier.
  destruct (classify_pit (perc_loc p) (assert_goal self))
    as (_ & Hk & Hp & Hs & Hq).
  cbv zeta in Hk, Hp, Hs, Hq. read_attributes.
  unfold observe. rewrite Htile.
  split; [|split; [|split]].
  - apply queries_pit_tiles. left. read_attributes. rewrite Hp. set_solver.
  - intros [Hin _]%queries_possible_pits. revert Hin. read_attributes.
    rewrite Hq. set_solver.
  - read_attributes. rewrite Hk, !told_app. simpl.
    by rewrite app_nil_r, <- app_assoc.
  - intros t. rewrite queries_safe_tiles. read_attributes. rewrite Hs.
    set_solver.
Qed.

(** X11. A step on any other tile than a pit or a clear one, the goal not
    being on the frontier, records the current location as safe, and makes a
    possible pit of every cardinal neighbour that was not known safe and
    that the frontier queries do not settle. *)
Theorem think_warning_tile (self : MazeAgent) (p : perception) (draw : nat) :
  let frontier := get_frontier_locs (env self) in
  let final := fst (think ask self p draw) in
  perc_tile p ≠ "P" ->
  perc_tile p ≠ "." ->
  goal self ∉ frontier ->
  perc_loc p ∈ safe_tiles final
  ∧ (perc_loc p ∉ possible_pits final)
  ∧ forall t,
      t ∈ get_cardinal_locs (env self) (perc_loc p) 1 ->
      t ∉ safe_tiles self -> t ≠ goal self -> t ≠ perc_loc p ->
      (t ∈ frontier ->
       ask (kb final) (P t true) = false ∧ ask (kb final) (P t false) = false) ->
      t ∈ possible_pits final.
Proof.
  intros frontier final HP Hclear Hgoal. unfold final.
  rewrite think_kb by done. rewrite think_state. cbv zeta.
  case_decide; [done|]. fold frontier.
  destruct (classify_warning (perc_tile p) (perc_loc p) (assert_goal self)
              HP Hclear) as (_ & _ & _ & Hs & Hq).
  cbv zeta in Hs, Hq. read_attributes. unfold observe.
  split; [|split].
  - apply queries_safe_tiles. left. read_attributes. rewrite Hs. set_solver.
  - intros [Hin _]%queries_possible_pits. revert Hin. read_attributes.
    rewrite Hq. set_solver.
  - intros t Ht Hunsafe Hng Hnl Hasks. apply queries_possible_pits.
    read_attributes. split.
    + rewrite Hq. apply elem_of_union_r, elem_of_difference.
      split; [by apply elem_of_list_to_set | set_solver].
    + intros [Hin [Hask | Hask]]; destruct (Hasks Hin) as [H1 H2]; congruence.
Qed.

(** X12. After a step with the goal off the frontier, [is_safe_tile] on a
    frontier location needs no new deduction: it answers True for a location
    of the safe set, False for one of the pit set only, and None exactly for
    the locations that are in neither. *)
Theorem is_safe_tile_after_think (self : MazeAgent) (p : perception)
    (draw : nat) (l : coord) :
  let final := fst (think ask self p draw) in
  goal self ∉ get_frontier_locs (env self) ->
  l ∈ get_frontier_locs (env self) ->
  (is_safe_tile ask final l = Some true <-> l ∈ safe_tiles final)
  ∧ (is_safe_tile ask final l = Some false
     <-> (l ∉ safe_tiles final) ∧ (l ∈ pit_tiles final))
  ∧ (is_safe_tile ask final l = None
     <-> (l ∉ safe_tiles final) ∧ (l ∉ pit_tiles final)).
Proof.
  intros final Hgoal Hl.
  assert (l ∉ pit_tiles final -> ask (kb final) (P l true) = false) as Hpit.
  { unfold final. rewrite think_kb by done. rewrite think_state. cbv zeta.
    case_decide; [done|]. rewrite queries_pit_tiles. intros Hno.
    destruct (ask _ (P l true)); [|done]. destruct Hno. by right. }
  assert (l ∉ safe_tiles final -> ask (kb final) (P l false) = false) as Hsafe.
  { unfold final. rewrite think_kb by done. rewrite think_state. cbv zeta.
    case_decide; [done|]. rewrite queries_safe_tiles. intros Hno.
    destruct (ask _ (P l false)); [|done]. destruct Hno. by right. }
  unfold is_safe_tile. repeat case_decide;
    try rewrite Hpit by done; try rewrite Hsafe by done; naive_solver.
Qed.

(** X13. With the goal on the frontier the step does nothing but assert the
    goal: whatever the tile, the answers of the knowledge base and the draw,
    it tells the goal clause, adds the goal to the safe set and changes
    nothing else. *)
Theorem think_shortcut_only_asserts_goal (self : MazeAgent) (p : perception)
    (draw : nat) :
  let final := fst (think ask self p draw) in
  goal self ∈ get_frontier_locs (env self) ->
  (forall ask' p' draw', think ask' self p' draw' = think ask self p draw)
  ∧ kb final = kb self ++ [Tell (P (goal self) false)]
  ∧ safe_tiles final = {[goal self]} ∪ safe_tiles self
  ∧ pit_tiles final = pit_tiles self
  ∧ possible_pits final = possible_pits self.
Proof.
  intros final Hgoal.
  assert (forall ask' p' draw',
            think ask' self p' draw'
            = (assert_goal self, Return (Some (goal self)))) as Hthink.
  { intros ask' p' draw'. unfold think. simpl. by case_decide. }
  unfold final. rewrite Hthink. split; [|done].
  intros ask' p' draw'. by rewrite !Hthink.
Qed.

(** The loop over the frontier for two knowledge bases that give the same
    answers about the frontier locations. *)
Lemma score_frontier_ext (ask' : MazeKnowledgeBase -> MazeClause -> bool)
    (frontier : list coord) (self : MazeAgent) :
  (forall l b, l ∈ frontier ->
               ask' (kb self) (P l b) = ask (kb self) (P l b)) ->
  score_frontier ask' frontier self = score_frontier ask frontier self.
Proof.
  unfold score_frontier. generalize (@nil (coord * Z)) false.
  revert self. induction frontier as [|l frontier IH]; intros self d a Hsame;
    [done|].
  simpl. assert (query ask' l self = query ask l self) as ->.
  { unfold query. rewrite !Hsame by left.
    destruct (ask (kb self) (P l true)); read_attributes;
      by rewrite !Hsame by left. }
  apply IH. destruct (query_frame ask l self) as (_ & _ & _ & ->).
  intros l' b Hl'. apply Hsame. by right.
Qed.

(** X14. The step consults the knowledge base about frontier locations
    only: two knowledge bases that give the same answers to the unit
    queries about the frontier locations lead to the same agent and the same
    choice. *)
Theorem think_asks_frontier_only
    (ask' : MazeKnowledgeBase -> MazeClause -> bool)
    (self : MazeAgent) (p : perception) (draw : nat) :
  let asked := kb (observe p (assert_goal self)) in
  (forall l b, l ∈ get_frontier_locs (env self) ->
               ask' asked (P l b) = ask asked (P l b)) ->
  think ask' self p draw = think ask self p draw.
Proof.
  intros asked Hsame. unfold think. simpl. case_decide; [done|].
  by rewrite score_frontier_ext.
Qed.

(** X15. In a step with the goal off the frontier the last call on the
    knowledge base is [simplify_self], made before the frontier is queried:
    what the queries establish goes into the pit set and the safe set and is
    not told back. *)
Theorem think_simplifies_before_queries (self : MazeAgent) (p : perception)
    (draw : nat) :
  let frontier := get_frontier_locs (env self) in
  let final := fst (think ask self p draw) in
  goal self ∉ frontier ->
  exists new pits safe,
    kb final = kb self ++ new ++ [SimplifySelf pits safe]
    ∧ (forall t, t ∈ pit_tiles final
                 <-> t ∈ pits
                     ∨ (t ∈ frontier ∧ ask (kb final) (P t true) = true))
    ∧ (forall t, t ∈ safe_tiles final
                 <-> t ∈ safe
                     ∨ (t ∈ frontier ∧ ask (kb final) (P t false) = true)).
Proof.
  intros frontier final Hgoal. unfold final.
  rewrite think_kb by done. rewrite think_state. cbv zeta.
  case_decide; [done|]. fold frontier.
  destruct (classify_grows (perc_tile p) (perc_loc p) (assert_goal self))
    as (_ & _ & new & Hnew). cbv zeta in Hnew.
  set (seen := classify (perc_tile p) (perc_loc p) (assert_goal self)) in *.
  exists ([Tell (P (goal self) false)] ++ new), (pit_tiles seen), (safe_tiles seen).
  split; [|split].
  - unfold observe. fold seen. cbn [kb kb_simplify_self with_kb].
    rewrite Hnew. cbn [kb assert_goal safe_tiles_add with_safe_tiles kb_tell with_kb].
    by rewrite <- !app_assoc.
  - intros t. by rewrite queries_pit_tiles.
  - intros t. by rewrite queries_safe_tiles.
Qed.

End Step.

(** ** Distances, the fresh agent, and pits found by counting *)

(** X16. The distance to the goal is never negative and is zero at the goal
    only. *)
Theorem get_manhattan_dist_zero_iff (self : MazeAgent) (l : coord) :
  0 <= get_manhattan_dist self l
  ∧ (get_manhattan_dist self l = 0 <-> l = goal self).
Proof.
  split; [unfold get_manhattan_dist; lia|]. split.
  - intros Hzero. destruct (decide (l = goal self)) as [? | Hne]; [done|].
    pose proof (get_manhattan_dist_pos self l Hne). lia.
  - intros ->. unfold get_manhattan_dist. lia.
Qed.

(** X17. Right after construction [is_safe_tile] answers True for the start,
    the goal and the cardinal neighbours of the start without consulting the
    knowledge base, and for every other location it answers what the fresh
    knowledge base says, the pit query first. *)
Theorem is_safe_tile_after_init
    (ask : MazeKnowledgeBase -> MazeClause -> bool)
    (e : Environment) (p : perception) (l : coord) :
  let self := MazeAgent_init e p in
  let known :=
    get_player_loc e :: get_goal_loc e
    :: get_cardinal_locs e (get_player_loc e) 1 in
  (l ∈ known -> is_safe_tile ask self l = Some true)
  ∧ (l ∉ known ->
     is_safe_tile ask self l
     = if ask [] (P l true) then Some false
       else if ask [] (P l false) then Some true
       else None).
Proof.
  intros self known. unfold self, is_safe_tile, MazeAgent_init. cbv zeta.
  match goal with
  | |- context [fold_left ?f ?ls ?a] =>
      destruct (fold_safe_tiles_add ls a) as (Hs & Hp & _ & Hk & _)
  end.
  cbv zeta in Hs, Hp, Hk. rewrite Hs, Hp, Hk. read_attributes.
  unfold known. split; intros Hl; repeat case_decide; try done; set_solver.
Qed.



(** ** What a step reaches and what it prefers *)

(** The classification changes the three sets at the current location and
    its cardinal neighbours only. *)
Lemma classify_bounds (tile_type : string) (location : coord)
    (self : MazeAgent) :
  let self' := classify tile_type location self in
  let near : gset coord :=
    list_to_set (location :: get_cardinal_locs (env self) location 1) in
  safe_tiles self' ⊆ safe_tiles self ∪ near
  ∧ pit_tiles self' ⊆ pit_tiles self ∪ near
  ∧ possible_pits self' ⊆ possible_pits self ∪ near.
Proof.
  intros self' near. unfold self', near.
  destruct (decide (tile_type = "P")) as [-> | HP].
  { destruct (classify_pit location self) as (_ & _ & -> & -> & ->).
    set_solver. }
  destruct (decide (tile_type = ".")) as [-> | Hclear].
  { destruct (classify_clear location self) as (_ & _ & -> & -> & ->).
    set_solver. }
  destruct (classify_warning tile_type location self HP Hclear)
    as (_ & _ & -> & -> & ->).
  destruct (warning_tile_clause_calls tile_type location self)
    as (cs & _ & Hbound). cbv zeta in Hbound.
  set_solver.
Qed.

Section Reach.

Variable ask : MazeKnowledgeBase -> MazeClause -> bool.

(** X19. A step reaches no further than the goal, the current location, its
    cardinal neighbours and the frontier: no other location enters the safe
    set or the pit set, and only the current location and its cardinal
    neighbours can become possible pits. *)
Theorem think_touches_neighbourhood_only (self : MazeAgent) (p : perception)
    (draw : nat) :
  let final := fst (think ask self p draw) in
  let near : gset coord :=
    list_to_set (perc_loc p :: get_cardinal_locs (env self) (perc_loc p) 1) in
  let frontier : gset coord := list_to_set (get_frontier_locs (env self)) in
  safe_tiles final ⊆ safe_tiles self ∪ {[goal self]} ∪ near ∪ frontier
  ∧ pit_tiles final ⊆ pit_tiles self ∪ near ∪ frontier
  ∧ possible_pits final ⊆ possible_pits self ∪ near.
Proof.
  intros final near frontier. unfold final. rewrite think_state. cbv zeta.
  case_decide; [read_attributes; set_solver|].
  destruct (classify_bounds (perc_tile p) (perc_loc p) (assert_goal self))
    as (Hs & Hp & Hq). cbv zeta in Hs, Hp, Hq. read_attributes.
  split; [|split]; intros t.
  - intros [Ht | [Ht _]]%queries_safe_tiles.
    + apply Hs in Ht. unfold near. set_solver.
    + apply elem_of_union_r, elem_of_list_to_set. exact Ht.
  - intros [Ht | [Ht _]]%queries_pit_tiles.
    + apply Hp in Ht. unfold near. set_solver.
    + apply elem_of_union_r, elem_of_list_to_set. exact Ht.
  - intros [Ht _]%queries_possible_pits. apply Hq in Ht. unfold near.
    set_solver.
Qed.

(** X20. The step never prefers a location that is not known safe, or that
    is a known pit, to a frontier location that is known safe, is no known
    pit and lies less than 15 farther from the goal. *)
Theorem think_prefers_known_safe (self : MazeAgent) (p : perception)
    (draw : nat) (b l : coord) :
  let frontier := get_frontier_locs (env self) in
  let final := fst (think ask self p draw) in
  consistent self ->
  goal self ∉ frontier ->
  snd (think ask self p draw) = Return (Some b) ->
  l ∈ frontier ->
  l ∈ safe_tiles final ->
  l ∉ pit_tiles final ->
  get_manhattan_dist self l < get_manhattan_dist self b + 15 ->
  b ∈ safe_tiles final ∧ b ∉ pit_tiles final.
Proof.
  intros frontier final Hcons Hgoal Hret Hl Hsafe Hpit Hdist.
  assert (frontier ≠ []) as Hne
    by (intros E; rewrite E in Hl; by apply elem_of_nil in Hl).
  assert (consistent final) as Hfinal by (by apply think_consistent).
  destruct (think_returns ask self p Hgoal Hne) as (b' & _ & Hmin & Hthink).
  rewrite Hthink in Hret. inversion Hret; subst b'.
  assert (queries ask frontier (observe p (assert_goal self)) = final) as Hq.
  { unfold final. by rewrite Hthink. }
  fold frontier in Hmin. rewrite Hq in Hmin.
  specialize (Hmin l Hl).
  rewrite !score_frontier_score in Hmin by done.
  assert (goal final = goal self) as Hg.
  { unfold final. rewrite think_state. cbv zeta. case_decide; [done|].
    destruct (queries_frame ask (get_frontier_locs (env self))
                (observe p (assert_goal self))) as (_ & -> & _).
    destruct (classify_same_world (perc_tile p) (perc_loc p)
                (assert_goal self)) as (_ & Hgc & _).
    unfold observe. read_attributes. exact Hgc. }
  unfold frontier_score, get_manhattan_dist in Hmin, Hdist.
  rewrite Hg in Hmin.
  repeat case_decide; try done; lia.
Qed.

End Reach.

(** ** The further properties at work on the example world *)

Lemma warning_clause_count_witness :
  let self := fresh_agent first_frontier in
  let l : coord := (2, 2) in
  (2 * length (generated "1" l self)
   = length (unresolved self l) * (length (unresolved self l) - 1) + 2)%nat.
Proof.
  intros self l. apply (warning_clause_count "1" l self).
  left. reflexivity.
Defined.

(** At the start every neighbour is known safe. *)
Lemma warning_without_unresolved_witness :
  let self := fresh_agent first_frontier in
  generated "1" (1, 2) self = [[]]
  ∧ satisfies_all (fun _ => true) (generated "1" (1, 2) self) = false.
Proof.
  intros self.
  apply (warning_without_unresolved "1" (1, 2) self (fun _ => true)).
  - left. reflexivity.
  - vm_compute. reflexivity.
Defined.

Lemma think_returns_frontier_location_witness :
  let self := fresh_agent first_frontier in
  let p := {| perc_loc := (1, 2); perc_tile := "." |} in
  exists b, b ∈ get_frontier_locs (env self)
            ∧ forall draw, snd (think ask_nothing self p draw) = Return (Some b).
Proof.
  intros self p. apply (think_returns_frontier_location ask_nothing self p).
  evaluate.
Defined.

Lemma think_keeps_consistent_witness :
  consistent
    (fst (think ask_everything (fresh_agent first_frontier)
                {| perc_loc := (2, 2); perc_tile := "3" |} 0)).
Proof.
  apply (think_keeps_consistent ask_everything (fresh_agent first_frontier)
           {| perc_loc := (2, 2); perc_tile := "3" |} 0).
  apply MazeAgent_init_consistent.
Defined.

Lemma think_pit_tile_witness :
  let self := fresh_agent [(4, 2); (3, 1); (3, 3)] in
  let p := {| perc_loc := (3, 2); perc_tile := "P" |} in
  let frontier := get_frontier_locs (env self) in
  let final := fst (think ask_nothing self p 0) in
  perc_loc p ∈ pit_tiles final
  ∧ (perc_loc p ∉ possible_pits final)
  ∧ told (kb final)
    = told (kb self) ++ [P (goal self) false; P (perc_loc p) true]
  ∧ forall t, t ∈ safe_tiles final
              <-> t = goal self ∨ t ∈ safe_tiles self
                  ∨ (t ∈ frontier ∧ ask_nothing (kb final) (P t false) = true).
Proof.
  intros self p. apply (think_pit_tile ask_nothing self p 0).
  - reflexivity.
  - evaluate.
Defined.

Lemma think_warning_tile_witness :
  let self := fresh_agent [(3, 2); (2, 1); (2, 3)] in
  let p := {| perc_loc := (2, 2); perc_tile := "1" |} in
  let frontier := get_frontier_locs (env self) in
  let final := fst (think ask_nothing self p 0) in
  perc_loc p ∈ safe_tiles final
  ∧ (perc_loc p ∉ possible_pits final)
  ∧ forall t,
      t ∈ get_cardinal_locs (env self) (perc_loc p) 1 ->
      t ∉ safe_tiles self -> t ≠ goal self -> t ≠ perc_loc p ->
      (t ∈ frontier ->
       ask_nothing (kb final) (P t true) = false
       ∧ ask_nothing (kb final) (P t false) = false) ->
      t ∈ possible_pits final.
Proof.
  intros self p. apply (think_warning_tile ask_nothing self p 0).
  - discriminate.
  - discriminate.
  - evaluate.
Defined.

Lemma is_safe_tile_after_think_witness :
  let self := fresh_agent first_frontier in
  let p := {| perc_loc := (1, 2); perc_tile := "." |} in
  let final := fst (think ask_nothing self p 0) in
  (is_safe_tile ask_nothing final (2, 2) = Some true
   <-> (2, 2) ∈ safe_tiles final)
  ∧ (is_safe_tile ask_nothing final (2, 2) = Some false
     <-> ((2, 2) ∉ safe_tiles final) ∧ ((2, 2) ∈ pit_tiles final))
  ∧ (is_safe_tile ask_nothing final (2, 2) = None
     <-> ((2, 2) ∉ safe_tiles final) ∧ ((2, 2) ∉ pit_tiles final)).
Proof.
  intros self p. apply (is_safe_tile_after_think ask_nothing self p 0 (2, 2)).
  - evaluate.
  - evaluate.
Defined.

Lemma think_shortcut_only_asserts_goal_witness :
  let self := fresh_agent [(4, 4); (5, 5)] in
  let p := {| perc_loc := (4, 5); perc_tile := "2" |} in
  let final := fst (think ask_nothing self p 0) in
  (forall ask' p' draw', think ask' self p' draw' = think ask_nothing self p 0)
  ∧ kb final = kb self ++ [Tell (P (goal self) false)]
  ∧ safe_tiles final = {[goal self]} ∪ safe_tiles self
  ∧ pit_tiles final = pit_tiles self
  ∧ possible_pits final = possible_pits self.
Proof.
  intros self p. apply (think_shortcut_only_asserts_goal ask_nothing self p 0).
  evaluate.
Defined.

(** A knowledge base that answers for the far location (9,9) only is as good
    as one that entails nothing. *)
Lemma think_asks_frontier_only_witness :
  let self := fresh_agent first_frontier in
  let p := {| perc_loc := (1, 2); perc_tile := "." |} in
  let ask' := fun (_ : MazeKnowledgeBase) (c : MazeClause) =>
                bool_decide (c = P (9, 9) true) in
  think ask' self p 0 = think ask_nothing self p 0.
Proof.
  intros self p ask'. apply (think_asks_frontier_only ask_nothing ask' self p 0).
  intros l b Hl. unfold ask', ask_nothing. apply bool_decide_eq_false_2.
  intros Heq. inversion Heq; subst. revert Hl. evaluate.
Defined.

Lemma think_simplifies_before_queries_witness :
  let self := fresh_agent first_frontier in
  let p := {| perc_loc := (1, 2); perc_tile := "." |} in
  let frontier := get_frontier_locs (env self) in
  let final := fst (think ask_everything self p 0) in
  exists new pits safe,
    kb final = kb self ++ new ++ [SimplifySelf pits safe]
    ∧ (forall t, t ∈ pit_tiles final
                 <-> t ∈ pits
                     ∨ (t ∈ frontier
                        ∧ ask_everything (kb final) (P t true) = true))
    ∧ (forall t, t ∈ safe_tiles final
                 <-> t ∈ safe
                     ∨ (t ∈ frontier
                        ∧ ask_everything (kb final) (P t false) = true)).
Proof.
  intros self p.
  apply (think_simplifies_before_queries ask_everything self p 0).
  evaluate.
Defined.


Lemma think_prefers_known_safe_witness :
  let self := fresh_agent first_frontier in
  let p := {| perc_loc := (1, 2); perc_tile := "." |} in
  let final := fst (think ask_nothing self p 0) in
  (2, 2) ∈ safe_tiles final ∧ (2, 2) ∉ pit_tiles final.
Proof.
  intros self p.
  apply (think_prefers_known_safe ask_nothing self p 0 (2, 2) (1, 3)).
  - apply MazeAgent_init_consistent.
  - evaluate.
  - reflexivity.
  - evaluate.
  - evaluate.
  - evaluate.
  - reflexivity.
Defined.

(** ** The fallback *)

Section Fallback.

Variable ask : MazeKnowledgeBase -> MazeClause -> bool.


End Fallback.


(** The scores at the start, with every neighbour known safe, are the plain
    distances to the goal (5,5), and the first of the two nearest locations
    is returned. *)
Lemma think_first_frontier_scores :
  let self := fresh_agent first_frontier in
  let p := {| perc_loc := (1, 2); perc_tile := "." |} in
  snd (fst (score_frontier ask_nothing first_frontier
              (observe p (assert_goal self))))
  = [((0, 2), 8); ((2, 2), 6); ((1, 1), 8); ((1, 3), 6)]
  ∧ snd (think ask_nothing self p 0) = Return (Some (2, 2)).
Proof. intros self p. split; vm_compute; reflexivity. Qed.
